(** * containers::Vector<T> (src/vector/vector.h): a shallow embedding

    The C++ class keeps three members,
      std::shared_ptr<T[]> data_;  size_type size_{0};  size_type capacity_{0};
    and hands out iterators that share the block [data_] points to.  The
    embedding keeps that shape: a store of blocks, a record of the three
    members, and every member function as a state transformer over the object
    and the store.  A call ends in one of four ways: it returns, it throws, it
    reaches std::terminate (an exception leaving a noexcept function), or it
    touches a slot outside the block it indexes, which C++ leaves undefined.

    Two things the class leaves to the caller are kept as the source has them.
    A block is shared: it is released when its last owner gives it up, and a
    pointer or reference into a released block reads nothing.  The arguments of
    insert, insert_many, insert_many_back and push_back are references
    (const_reference, Args&&...): one that refers to a slot of a buffer is read
    when the assignment runs, not when the call is made. *)

From stdpp Require Import base numbers option list.

Local Open Scope Z_scope.

(** ** size_type *)

(** [size_type] is [size_t]: 64 bits, arithmetic modulo 2^64. *)
Abbreviation size_type := Z (only parsing).

Definition SIZE_MAX : Z := 2 ^ 64 - 1.

Definition wrap (x : Z) : size_type := x mod 2 ^ 64.

(** ** Outcomes of a call *)

Inductive exn : Type :=
| runtime_error   (* thrown by allocate_vector: "Error: Failed to allocate memory" *)
| out_of_range    (* thrown by at and by the iterator's bounds check *)
| bad_alloc.      (* a plain [new T[n]] that fails (shrink_to_fit) *)

Inductive outcome (S A : Type) : Type :=
| Ret (a : A) (s : S)        (* normal return, with the state it leaves *)
| Throw (e : exn) (s : S)    (* an exception, with the state at the throw *)
| Terminated                 (* std::terminate *)
| Undefined.                 (* access outside the indexed block *)

Arguments Ret {S A} a s.
Arguments Throw {S A} e s.
Arguments Terminated {S A}.
Arguments Undefined {S A}.

Definition bind {S A B : Type} (m : S -> outcome S A) (k : A -> S -> outcome S B)
  : S -> outcome S B :=
  fun s =>
    match m s with
    | Ret a s' => k a s'
    | Throw e s' => Throw e s'
    | Terminated => Terminated
    | Undefined => Undefined
    end.

Definition ret {S A : Type} (a : A) : S -> outcome S A := fun s => Ret a s.

Definition throw {S A : Type} (e : exn) : S -> outcome S A := fun s => Throw e s.

(** A function declared noexcept: an exception that would leave it calls
    std::terminate instead. *)
Definition noexcept {S A : Type} (m : S -> outcome S A) : S -> outcome S A :=
  fun s =>
    match m s with
    | Throw _ _ => Terminated
    | r => r
    end.

Notation "'do' x <- m ; k" := (bind m (fun x => k))
  (at level 10, x name, m at level 100, k at level 200).
Notation "'do_' m ; k" := (bind m (fun _ => k))
  (at level 10, m at level 100, k at level 200).

(** What the model takes from outside the class: the value a
    default-initialised slot of [new T[n]] holds; the allocator, where
    [alloc_ok n] tells whether a request for [n] slots is satisfied; and the
    owners outside the running call, where [pinned l] tells that block [l] is
    also owned by someone the call does not see (an iterator the caller keeps,
    a temporary of the calling expression), so that the block outlives the
    shares the call gives up. *)
Class Environment (T : Type) : Type := {
  dflt : T;
  alloc_ok : Z -> bool;
  pinned : nat -> bool
}.

Section VectorModel.

Context {T : Type} {env : Environment T}.

(** ** The store *)

Abbreviation loc := nat (only parsing).

(** Blocks are never reused.  A block lives as long as a shared_ptr owns it;
    once released it has no slot left, so that every access through a pointer
    or reference that stayed behind falls outside the block. *)
Abbreviation heap := (list (list T)) (only parsing).

(** The block behind a shared_ptr; the null pointer has no slot. *)
Definition block (h : heap) (p : option loc) : list T :=
  match p with
  | Some l => default [] (h !! l)
  | None => []
  end.

(** [new T[n]] *)
Definition new_array (n : Z) (h : heap) : option (loc * heap) :=
  if alloc_ok n
  then Some (length h, h ++ [replicate (Z.to_nat n) dflt])
  else None.

(** The block at [p] is deallocated. *)
Definition free (p : option loc) (h : heap) : heap :=
  match p with
  | Some l => <[l := []]> h
  | None => h
  end.

(** An owner gives up its share of the block at [p]: the block is deallocated
    unless an owner outside the call holds it too. *)
Definition release (p : option loc) (h : heap) : heap :=
  match p with
  | Some l => if pinned l then h else free p h
  | None => h
  end.

(** Read and write of slot [i] of the block at [p]. *)
Definition load (h : heap) (p : option loc) (i : Z) : option T :=
  block h p !! Z.to_nat i.

Definition store (p : option loc) (i : Z) (x : T) (h : heap) : option heap :=
  match p with
  | Some l =>
      if decide (Z.to_nat i < length (block h p))%nat
      then Some (<[l := <[Z.to_nat i := x]> (block h p)]> h)
      else None
  | None => None
  end.

(** [std::copy(first, first + n, dst)] between blocks: the first [n] slots of
    the source block overwrite the first [n] slots of the destination. *)
Definition std_copy (src : option loc) (n : Z) (dst : option loc) (h : heap)
  : option heap :=
  if n =? 0 then Some h
  else
    match dst with
    | Some l =>
        if decide (Z.to_nat n <= length (block h src)
                   /\ Z.to_nat n <= length (block h dst))%nat
        then Some (<[l := take (Z.to_nat n) (block h src)
                           ++ drop (Z.to_nat n) (block h dst)]> h)
        else None
    | None => None
    end.

(** [std::uninitialized_fill_n(p, n, value)] *)
Definition fill_n (p : option loc) (n : Z) (value : T) (h : heap) : option heap :=
  if n =? 0 then Some h
  else
    match p with
    | Some l =>
        if decide (Z.to_nat n <= length (block h p))%nat
        then Some (<[l := replicate (Z.to_nat n) value
                           ++ drop (Z.to_nat n) (block h p)]> h)
        else None
    | None => None
    end.

(** ** VectorIterator<T> *)

(** Modelled from the spec: vector_iterator.h is not among the sources.  The
    spec gives the iterator a shared reference to the buffer and a
    buffer-relative index; vector.h builds it as [iterator(data_, size_)], so it
    also records the size of the vector it was taken from.  Adding an offset
    that leaves [0, size] raises OutOfRange ("Error: Step goes beyond vector
    size" in unit_tests.cc).  [it[i]] addresses slot [i] of the buffer: vector.h
    indexes [begin() + posIndex] with absolute positions. *)
Record VectorIterator : Type := {
  ptr_ : option loc;
  bound_ : size_type;
  index_ : Z
}.

Record reference : Type := { ref_ptr : option loc; ref_slot : Z }.

(** An argument bound to [const_reference] or [Args&&]: an object that is not
    a slot of a buffer (a temporary, a variable of the caller), which keeps its
    value [x] for the whole call, or a reference to a slot of a buffer. *)
Inductive operand : Type :=
| Val (x : T)
| Ref (r : reference).

Definition it_add {S : Type} (it : VectorIterator) (n : Z)
  : S -> outcome S VectorIterator :=
  if (0 <=? index_ it + n) && (index_ it + n <=? bound_ it)
  then ret {| ptr_ := ptr_ it; bound_ := bound_ it; index_ := index_ it + n |}
  else throw out_of_range.

(** [std::distance(first, last)] *)
Definition distance (first last : VectorIterator) : Z := index_ last - index_ first.

(** ** Vector<T> *)

Record Vector : Type := {
  data_ : option loc;
  size_ : size_type;
  capacity_ : size_type
}.

Definition set_data (p : option loc) (v : Vector) : Vector :=
  {| data_ := p; size_ := size_ v; capacity_ := capacity_ v |}.
Definition set_size (n : size_type) (v : Vector) : Vector :=
  {| data_ := data_ v; size_ := n; capacity_ := capacity_ v |}.
Definition set_capacity (n : size_type) (v : Vector) : Vector :=
  {| data_ := data_ v; size_ := size_ v; capacity_ := n |}.

(** The object a member function runs on, and the store. *)
Record state : Type := { this : Vector; mem : heap }.

Definition M (A : Type) : Type := state -> outcome state A.

Definition modify_this (f : Vector -> Vector) : M unit :=
  fun st => Ret tt {| this := f (this st); mem := mem st |}.

(** A step on the store alone; [None] is an access outside a block. *)
Definition on_mem (f : heap -> option heap) : M unit :=
  fun st =>
    match f (mem st) with
    | Some h => Ret tt {| this := this st; mem := h |}
    | None => Undefined
    end.

(** The logical content: slots [0, size_) of the block. *)
Definition elements (st : state) : list T :=
  take (Z.to_nat (size_ (this st))) (block (mem st) (data_ (this st))).

Definition deref (h : heap) (r : reference) : option T :=
  load h (ref_ptr r) (ref_slot r).

(** [*it] and [it[i]]: a reference to a slot of the buffer, which has to
    exist. *)
Definition it_star (it : VectorIterator) : M reference :=
  fun st =>
    match load (mem st) (ptr_ it) (index_ it) with
    | Some _ => Ret {| ref_ptr := ptr_ it; ref_slot := index_ it |} st
    | None => Undefined
    end.

Definition it_get (it : VectorIterator) (i : size_type) : M T :=
  fun st =>
    match load (mem st) (ptr_ it) i with
    | Some x => Ret x st
    | None => Undefined
    end.

Definition it_set (it : VectorIterator) (i : size_type) (x : T) : M unit :=
  on_mem (store (ptr_ it) i x).

(** The value read through an argument when an assignment from it runs; a
    reference whose slot is gone is dangling. *)
Definition read_arg (a : operand) : M T :=
  fun st =>
    match a with
    | Val x => Ret x st
    | Ref r =>
        match deref (mem st) r with
        | Some x => Ret x st
        | None => Undefined
        end
    end.

(** [data_] takes over a block it did not own, and gives up its share of the
    block it pointed to (shared_ptr::reset, shared_ptr move assignment). *)
Definition assign_data (p : option loc) : M unit :=
  fun st =>
    Ret tt {| this := set_data p (this st);
              mem := if bool_decide (data_ (this st) = p) then mem st
                     else release (data_ (this st)) (mem st) |}.

(** An iterator that pointed to the block at [p] is assigned another value:
    its share is given up, while the vector keeps the block [data_] points
    to. *)
Definition drop_iterator (p : option loc) : M unit :=
  fun st =>
    Ret tt {| this := this st;
              mem := if bool_decide (p = data_ (this st)) then mem st
                     else release p (mem st) |}.

(** The scope of a local vector [v]: when the scope is left, by return or by
    an exception, the destructor of [v] deallocates its block, which has no
    other owner. *)
Definition scoped {A : Type} (v : Vector) (body : M A) : M A :=
  fun st =>
    match body st with
    | Ret a s => Ret a {| this := this s; mem := free (data_ v) (mem s) |}
    | Throw e s => Throw e {| this := this s; mem := free (data_ v) (mem s) |}
    | Terminated => Terminated
    | Undefined => Undefined
    end.

(** *** Construction *)

(** void Vector<T>::allocate_vector(size_type size):
      try { data_.reset(new T[size]); } catch (std::bad_alloc& e) { throw ...; } *)
Definition allocate_vector (n : size_type) : M unit :=
  fun st =>
    match new_array n (mem st) with
    | Some (l, h) => assign_data (Some l) {| this := this st; mem := h |}
    | None => Throw runtime_error st
    end.

(** A constructor runs its body on the object its member initialisers built;
    if the body throws, no object comes to exist. *)
Definition construct (init : Vector) (body : M unit) (h : heap) : outcome heap Vector :=
  match body {| this := init; mem := h |} with
  | Ret _ st => Ret (this st) (mem st)
  | Throw e st => Throw e (mem st)
  | Terminated => Terminated
  | Undefined => Undefined
  end.

(** Vector() = default *)
Definition Vector_default : Vector :=
  {| data_ := None; size_ := 0; capacity_ := 0 |}.

(** explicit Vector(size_type capacity, const_reference value = {}) *)
Definition Vector_fill (capacity : size_type) (value : T) : heap -> outcome heap Vector :=
  construct {| data_ := None; size_ := capacity; capacity_ := capacity |}
    (do_ allocate_vector capacity;
     fun st => on_mem (fill_n (data_ (this st)) capacity value) st).

(** Vector(std::initializer_list<T> const& items) *)
Definition Vector_items (items : list T) : heap -> outcome heap Vector :=
  let n := wrap (Z.of_nat (length items)) in
  construct {| data_ := None; size_ := n; capacity_ := n |}
    (do_ allocate_vector n;
     fun st =>
       on_mem (fun h =>
                 match data_ (this st) with
                 | Some l =>
                     if decide (length items <= length (block h (Some l)))%nat
                     then Some (<[l := items ++ drop (length items) (block h (Some l))]> h)
                     else None
                 | None => None
                 end) st).

(** Vector(const Vector<T>& v) *)
Definition Vector_copy (v : Vector) : heap -> outcome heap Vector :=
  construct {| data_ := None; size_ := size_ v; capacity_ := size_ v |}
    (do_ allocate_vector (size_ v);
     fun st => on_mem (std_copy (data_ v) (size_ v) (data_ (this st))) st).

(** Vector(Vector<T>&& v) noexcept: the new object, and [v] as it is left. *)
Definition Vector_move (v : Vector) : Vector * Vector :=
  ({| data_ := data_ v; size_ := size_ v; capacity_ := size_ v |},
   {| data_ := None; size_ := 0; capacity_ := 0 |}).

(** A local object built by constructor [c]; an exception of the constructor
    leaves the function with [this] untouched. *)
Definition local (c : heap -> outcome heap Vector) : M Vector :=
  fun st =>
    match c (mem st) with
    | Ret v h => Ret v {| this := this st; mem := h |}
    | Throw e h => Throw e {| this := this st; mem := h |}
    | Terminated => Terminated
    | Undefined => Undefined
    end.

(** *** Capacity *)

Definition empty (v : Vector) : bool := size_ v =? 0.
Definition size (v : Vector) : size_type := size_ v.
Definition max_size : size_type := SIZE_MAX.
Definition capacity (v : Vector) : size_type := capacity_ v.

(** iterator begin() { return iterator(data_, size_); } *)
Definition begin (v : Vector) : VectorIterator :=
  {| ptr_ := data_ v; bound_ := size_ v; index_ := 0 |}.

(** iterator end() { iterator b = begin(); return b + size_; } *)
Definition end_ : M VectorIterator :=
  fun st => it_add (begin (this st)) (size_ (this st)) st.

(** void reserve(size_type new_cap): [tmp] lives to the end of the block of
    the [if]. *)
Definition reserve (new_cap : size_type) : M unit :=
  fun st =>
    let new_cap := if new_cap =? 0 then 2 else new_cap in
    if capacity (this st) <? new_cap then
      (do tmp <- local (Vector_copy (this st));
       scoped tmp
         (do_ modify_this (set_capacity new_cap);
          do_ allocate_vector new_cap;
          fun st' => on_mem (std_copy (data_ tmp) (size_ tmp) (data_ (this st'))) st')) st
    else Ret tt st.

(** void shrink_to_fit() *)
Definition shrink_to_fit : M unit :=
  fun st =>
    if size_ (this st) <? capacity_ (this st) then
      (do_ modify_this (set_capacity (size_ (this st)));
       fun st1 =>
         match new_array (capacity_ (this st1)) (mem st1) with
         | Some (tmp, h) =>
             (do_ on_mem (std_copy (data_ (this st1)) (size_ (this st1)) (Some tmp));
              assign_data (Some tmp))
               {| this := this st1; mem := h |}
         | None => Throw bad_alloc st1
         end) st
    else Ret tt st.

(** *** Element access *)

(** reference at(const size_type pos) *)
Definition at_ (pos : size_type) : M reference :=
  fun st =>
    if size_ (this st) <=? pos then Throw out_of_range st
    else (do it <- it_add (begin (this st)) pos; it_star it) st.

(** reference operator[](size_type pos) { return at(pos); } *)
Definition subscript (pos : size_type) : M reference := at_ pos.

(** void set_element(size_type pos, const_reference value) *)
Definition set_element (pos : size_type) (value : T) : M unit :=
  do r <- at_ pos;
  on_mem (store (ref_ptr r) (ref_slot r) value).

(** const_reference front() const { return at(0); } *)
Definition front : M reference := at_ 0.

(** const_reference back() const { return at(size_ - 1); } *)
Definition back : M reference :=
  fun st => at_ (wrap (size_ (this st) - 1)) st.

(** *** Modifiers *)

(** void clear() *)
Definition clear : M unit := modify_this (set_size 0).

(** void pop_back() *)
Definition pop_back : M unit :=
  fun st =>
    if 0 <? size_ (this st)
    then modify_this (set_size (wrap (size_ (this st) - 1))) st
    else Ret tt st.

(** void swap(Vector<T>& other): the result is [other] as it is left. *)
Definition swap (other : Vector) : M Vector :=
  fun st => Ret (this st) {| this := other; mem := mem st |}.

(** The loop of erase, [k] iterations from index [i]:
      for (size_t i = posIndex; i < size() - 1; ++i) it[i] = it[i + 1]; *)
Fixpoint erase_loop (it : VectorIterator) (k : nat) (i : size_type) : M unit :=
  match k with
  | O => ret tt
  | S k' =>
      do x <- it_get it (wrap (i + 1));
      do_ it_set it i x;
      erase_loop it k' (wrap (i + 1))
  end.

(** void erase(iterator pos) *)
Definition erase (pos : VectorIterator) : M unit :=
  fun st =>
    let posIndex := wrap (distance (begin (this st)) pos) in
    let it := begin (this st) in
    (do_ erase_loop it (Z.to_nat (wrap (size (this st) - 1) - posIndex)) posIndex;
     fun st' => modify_this (set_size (wrap (size_ (this st') - 1))) st') st.

(** The shifting loop of insert_many, [k] iterations from index [i]:
      for (size_t i = size() + numArgs - 1; i >= posIndex + numArgs; --i)
        it[i] = it[i - numArgs]; *)
Fixpoint shift_loop (it : VectorIterator) (numArgs : size_type) (k : nat) (i : size_type)
  : M unit :=
  match k with
  | O => ret tt
  | S k' =>
      do x <- it_get it (wrap (i - numArgs));
      do_ it_set it i x;
      shift_loop it numArgs k' (wrap (i - 1))
  end.

(** The fold [((it[posIndex++] = std::forward<Args>(args)), ...)]. *)
Fixpoint write_args (it : VectorIterator) (posIndex : size_type) (args : list operand)
  : M unit :=
  match args with
  | [] => ret tt
  | a :: args' =>
      do x <- read_arg a;
      do_ it_set it posIndex x;
      write_args it (wrap (posIndex + 1)) args'
  end.

(** insert_many from [auto it = begin() + posIndex] to [return pos].
    The loop condition [i >= posIndex + numArgs] compares size_t values.  When
    the right-hand side is 0 it holds for every [i]: the loop is never left,
    [--i] wraps to SIZE_MAX and the loop indexes the buffer there.  Otherwise
    it runs for i = size()+numArgs-1 down to posIndex+numArgs. *)
Definition insert_many_place (posIndex numArgs : size_type) (args : list operand)
    (pos : VectorIterator) : M VectorIterator :=
  do it <- (fun st => it_add (begin (this st)) posIndex st);
  do_ (fun st =>
         let first := wrap (size (this st) + numArgs - 1) in
         let last := wrap (posIndex + numArgs) in
         if last =? 0 then Undefined
         else shift_loop it numArgs (Z.to_nat (first - last + 1)) first st);
  do_ write_args it posIndex args;
  do_ (fun st => modify_this (set_size (wrap (size_ (this st) + numArgs))) st);
  ret pos.

(** The fold [((data_[size_++] = std::forward<Args>(args)), ...)]. *)
Fixpoint append_args (args : list operand) : M unit :=
  match args with
  | [] => ret tt
  | a :: args' =>
      do_ (fun st =>
             (do_ modify_this (set_size (wrap (size_ (this st) + 1)));
              do x <- read_arg a;
              on_mem (store (data_ (this st)) (size_ (this st)) x)) st);
      append_args args'
  end.

(** void insert_many_back(Args&&... args) *)
Definition insert_many_back (args : list operand) : M unit :=
  do_ (fun st =>
         if size (this st) =? capacity (this st)
         then reserve (wrap (capacity (this st) * 2)) st
         else Ret tt st);
  append_args args.

(** void push_back(const_reference value) *)
Definition push_back (value : operand) : M unit := insert_many_back [value].

(** Arguments that are objects outside every buffer. *)
Definition values (xs : list T) : list operand := map Val xs.

(** ** Representation predicates *)

(** Number of slots of the block the vector points to. *)
Definition block_len (st : state) : Z :=
  Z.of_nat (length (block (mem st) (data_ (this st)))).

(** [size_] is a size_t, and slots [0, size_) exist in the block. *)
Definition stored (st : state) : Prop :=
  0 <= size_ (this st) <= block_len st /\ size_ (this st) <= SIZE_MAX.

(** The data model of the spec: [size_ <= capacity_], and [capacity_] slots
    are allocated. *)
Definition wf (st : state) : Prop :=
  0 <= size_ (this st) <= capacity_ (this st)
  /\ capacity_ (this st) <= block_len st
  /\ capacity_ (this st) <= SIZE_MAX.

(** The request [reserve] works with. *)
Definition requested (c : Z) : Z := if c =? 0 then 2 else c.

(** The block a growth to [c] slots builds from block [b] holding [s]
    elements. *)
Definition grown (s c : Z) (b : list T) : list T :=
  take (Z.to_nat s) b ++ replicate (Z.to_nat c - Z.to_nat s) dflt.

(** The state a call leaves behind, when it returns or throws. *)
Definition final_state {A : Type} (r : outcome state A) : option state :=
  match r with
  | Ret _ s | Throw _ s => Some s
  | Terminated | Undefined => None
  end.

(** The block insert_many leaves when it places [args] at offset [p] of a
    block [b] holding [s] elements: the shifted tail follows the arguments. *)
Definition placed (p s : nat) (args b : list T) : list T :=
  take p b ++ args ++ take (s - p) (drop p b) ++ drop (s + length args) b.

(** The state of vector [v] in store [h] with block [b] put at [l]. *)
Definition with_block (l : loc) (v : Vector) (h : heap) (b : list T) : state :=
  {| this := v; mem := <[l := b]> h |}.

(** The value an argument has in the store [h]. *)
Definition value_of (h : heap) (a : operand) : option T :=
  match a with
  | Val x => Some x
  | Ref r => deref h r
  end.

(** An argument of a call on the vector of [st] that reads [x] when the call
    is made and still reads [x] when the call assigns from it.  A value always
    does.  A reference does if it refers to another block than the vector's
    buffer; if it refers to the buffer, the call has to leave the slot alone:
    when the buffer is replaced ([grows]), an owner outside the call has to
    keep the old block, and otherwise the slot has to lie before [lo], the
    first slot the call writes. *)
Definition undisturbed (st : state) (grows : bool) (lo : Z) (a : operand) (x : T) : Prop :=
  value_of (mem st) a = Some x
  /\ match a with
     | Val _ => True
     | Ref r =>
         forall l, ref_ptr r = Some l -> data_ (this st) = Some l ->
                   if grows then pinned l = true else 0 <= ref_slot r < lo
     end.

End VectorModel.

Arguments state : clear implicits.
Arguments M : clear implicits.
Arguments operand : clear implicits.

(** The owners during a call that itself holds the block at [p], through a
    parameter or through another vector. *)
Definition hold {T : Type} (env : Environment T) (p : option nat) : Environment T :=
  {| dflt := @dflt T env;
     alloc_ok := @alloc_ok T env;
     pinned := fun l => @pinned T env l || bool_decide (p = Some l) |}.

(** Vector& operator=(Vector&& v) noexcept, for [v] another object than
    [*this].  [v] is only read, and owns its block throughout; the result is
    [v] as the call leaves it. *)
Definition move_assign {T : Type} {env : Environment T} (v : Vector) : M T Vector :=
  noexcept
    (do_ modify_this (set_size (size v));
     do_ modify_this (set_capacity (capacity v));
     do_ (fun st => allocate_vector (env := hold env (data_ v)) (size_ (this st)) st);
     do_ (fun st => on_mem (std_copy (data_ v) (size_ v) (data_ (this st))) st);
     ret v).

(** iterator insert_many(iterator pos, Args&&... args).  The parameter [pos]
    owns the block it points to until [pos = begin() + posIndex] assigns it. *)
Definition insert_many {T : Type} {env : Environment T}
    (pos : VectorIterator) (args : list (operand T)) : M T VectorIterator :=
  fun st =>
    let posIndex := wrap (distance (begin (this st)) pos) in
    let numArgs := wrap (Z.of_nat (length args)) in
    (do pos <- (fun st1 =>
                  if capacity (this st1) <? wrap (size (this st1) + numArgs) then
                    (do_ reserve (env := hold env (ptr_ pos)) (wrap (size (this st1) + numArgs));
                     do pos' <- (fun st2 => it_add (begin (this st2)) posIndex st2);
                     do_ drop_iterator (ptr_ pos);
                     ret pos') st1
                  else Ret pos st1);
     insert_many_place posIndex numArgs args pos) st.

(** iterator insert(iterator pos, const_reference value)
      { return insert_many(pos, value); }
    The parameter [pos] of insert owns its block while insert_many runs on a
    copy of it. *)
Definition insert {T : Type} {env : Environment T}
    (pos : VectorIterator) (value : operand T) : M T VectorIterator :=
  insert_many (env := hold env (ptr_ pos)) pos [value].

(** ** Vector<int>

    The instance the scenarios of the spec and of unit_tests.cc run on:
    elements are integers, a default-initialised slot reads 0, and the allocator
    grants requests of up to 2^32 slots. *)

#[export] Instance int_allocator : Environment Z :=
  {| dflt := 0; alloc_ok := fun n => n <=? 4294967296; pinned := fun _ => false |}.

(** The state after [Vector<int> v{items}] in an empty store. *)
Definition initialized (items : list Z) : state Z :=
  match Vector_items items [] with
  | Ret v h => {| this := v; mem := h |}
  | _ => {| this := Vector_default; mem := [] |}
  end.

(** An allocator that grants requests of up to 4 slots, for the calls whose
    allocation is refused. *)
Definition small_allocator : Environment Z :=
  {| dflt := 0; alloc_ok := fun n => n <=? 4; pinned := fun _ => false |}.

(** The owners when the caller keeps an iterator into the first block of the
    store. *)
Definition caller_keeps_first_block : Environment Z :=
  {| dflt := 0; alloc_ok := fun n => n <=? 4294967296; pinned := fun l => Nat.eqb l 0 |}.

(** A vector with unused capacity: {1,2,3} after reserve(10). *)
Definition reserved_123 : state Z :=
  {| this := {| data_ := Some 2%nat; size_ := 3; capacity_ := 10 |};
     mem := [[]; []; [1; 2; 3; 0; 0; 0; 0; 0; 0; 0]] |}.

(** The state after [Vector<int> v;] in an empty store. *)
Definition default_constructed : state Z :=
  {| this := Vector_default; mem := [] |}.

(** [begin() + p] of the vector of [st]. *)
Definition begin_plus (st : state Z) (p : Z) : VectorIterator :=
  {| ptr_ := data_ (this st); bound_ := size_ (this st); index_ := p |}.

(** The state of the object [b] after
      Vector<int> a{1,2,3};  a.reserve(10);  Vector<int> b(std::move(a));
      b.pop_back(); *)
Definition moved_and_popped : outcome (state Z) unit :=
  (do_ reserve 10;
   do_ (fun st => Ret tt {| this := (Vector_move (this st)).1; mem := mem st |});
   pop_back) (initialized [1; 2; 3]).

(** * Properties *)

Section VectorProofs.

Context {T : Type} {env : Environment T}.

#[local] Abbreviation heap := (list (list T)) (only parsing).

(** ** Arithmetic of size_type *)

Lemma wrap_small (x : Z) : 0 <= x <= SIZE_MAX -> wrap x = x.
Proof. unfold wrap, SIZE_MAX. intros H. apply Z.mod_small. lia. Qed.

Lemma wrap_range (x : Z) : 0 <= wrap x <= SIZE_MAX.
Proof.
  unfold wrap, SIZE_MAX.
  assert (0 <= x mod 2 ^ 64 < 2 ^ 64) by (apply Z.mod_pos_bound; lia). lia.
Qed.

Lemma wrap_minus_one : wrap (0 - 1) = SIZE_MAX.
Proof. reflexivity. Qed.

(** ** The store *)

Lemma block_insert (h : heap) (l : nat) (b : list T) :
  (l < length h)%nat -> block (<[l := b]> h) (Some l) = b.
Proof. intros Hl. unfold block. by rewrite list_lookup_insert_eq. Qed.

Lemma block_valid (h : heap) (l : nat) :
  (0 < length (block h (Some l)))%nat -> (l < length h)%nat.
Proof.
  unfold block. intros Hb. destruct (h !! l) as [b|] eqn:E.
  - by eapply lookup_lt_Some.
  - simpl in Hb. lia.
Qed.

Lemma block_app (h h' : heap) (p : option nat) :
  (0 < length (block h p))%nat -> block (h ++ h') p = block h p.
Proof.
  destruct p as [l|]; [|done]. intros Hb.
  pose proof (block_valid _ _ Hb) as Hl.
  unfold block. by rewrite lookup_app_l.
Qed.

Lemma block_new (h : heap) (b : list T) : block (h ++ [b]) (Some (length h)) = b.
Proof. unfold block. by rewrite list_lookup_middle. Qed.

Lemma block_insert_ne (h : heap) (l : nat) (b : list T) (p : option nat) :
  p <> Some l -> block (<[l := b]> h) p = block h p.
Proof.
  destruct p as [l'|]; [|done]. intros Hne. unfold block.
  rewrite list_lookup_insert_ne; [done|congruence].
Qed.

Lemma length_free (p : option nat) (h : heap) : length (free p h) = length h.
Proof. destruct p as [l|]; [|done]. simpl. by rewrite length_insert. Qed.

Lemma length_release (p : option nat) (h : heap) : length (release p h) = length h.
Proof.
  destruct p as [l|]; [|done]. unfold release.
  destruct (pinned l); [done|apply length_free].
Qed.

Lemma free_dangling (l : nat) (h : heap) :
  (length h <= l)%nat -> free (Some l) h = h.
Proof. intros Hl. simpl. by rewrite list_insert_ge. Qed.

Lemma release_dangling (l : nat) (h : heap) :
  (length h <= l)%nat -> release (Some l) h = h.
Proof.
  intros Hl. unfold release. destruct (pinned l); [done|by apply free_dangling].
Qed.

Lemma free_snoc (p : option nat) (h : heap) (b : list T) :
  p <> Some (length h) -> free p (h ++ [b]) = free p h ++ [b].
Proof.
  destruct p as [l|]; [|done]. intros Hne. simpl.
  destruct (decide (l < length h)%nat) as [Hlt|Hge].
  - by rewrite insert_app_l.
  - assert (length h < l)%nat by (destruct (decide (l = length h)); [congruence|lia]).
    rewrite !list_insert_ge; [done|lia|rewrite length_app; simpl; lia].
Qed.

Lemma release_snoc (p : option nat) (h : heap) (b : list T) :
  p <> Some (length h) -> release p (h ++ [b]) = release p h ++ [b].
Proof.
  destruct p as [l|]; [|done]. intros Hne. unfold release.
  destruct (pinned l); [done|by apply free_snoc].
Qed.

Lemma free_new (h : heap) (b : list T) : free (Some (length h)) (h ++ [b]) = h ++ [[]].
Proof. simpl. rewrite insert_app_r_alt by lia. by rewrite Nat.sub_diag. Qed.

Lemma block_free_ne (h : heap) (p q : option nat) :
  q <> p -> block (free p h) q = block h q.
Proof. destruct p as [l|]; [|done]. intros Hne. by apply block_insert_ne. Qed.

Lemma block_free (h : heap) (p : option nat) : block (free p h) p = [].
Proof.
  destruct p as [l|]; [|done]. simpl.
  destruct (decide (l < length h)%nat).
  - by rewrite list_lookup_insert_eq.
  - rewrite list_insert_ge by lia. by rewrite lookup_ge_None_2 by lia.
Qed.

Lemma block_release_ne (h : heap) (p q : option nat) :
  q <> p -> block (release p h) q = block h q.
Proof.
  destruct p as [l|]; [|done]. intros Hne. unfold release.
  destruct (pinned l); [done|by apply block_free_ne].
Qed.

Lemma block_release_pinned (h : heap) (l : nat) (q : option nat) :
  pinned l = true -> block (release (Some l) h) q = block h q.
Proof. intros Hp. unfold release. by rewrite Hp. Qed.

Lemma block_release_freed (h : heap) (l : nat) :
  pinned l = false -> block (release (Some l) h) (Some l) = [].
Proof. intros Hp. unfold release. rewrite Hp. apply block_free. Qed.

Lemma store_Some (p : option nat) (i : Z) (x : T) (h : heap) (l : nat) :
  p = Some l -> (Z.to_nat i < length (block h p))%nat ->
  store p i x h = Some (<[l := <[Z.to_nat i := x]> (block h p)]> h).
Proof. intros -> Hi. unfold store. by rewrite decide_True. Qed.

(** ** Checked element access *)

Lemma stored_data (st : state T) (pos : Z) :
  stored st -> 0 <= pos < size_ (this st) ->
  exists l, data_ (this st) = Some l
            /\ (Z.to_nat pos < length (block (mem st) (data_ (this st))))%nat.
Proof.
  unfold stored, block_len. intros Hst Hpos.
  destruct (data_ (this st)) as [l|] eqn:E.
  - exists l. split; [done|lia].
  - simpl in Hst. lia.
Qed.

Lemma begin_add {S : Type} (v : Vector) (n : Z) (s : S) :
  0 <= n <= size_ v ->
  it_add (begin v) n s = Ret {| ptr_ := data_ v; bound_ := size_ v; index_ := n |} s.
Proof.
  intros Hn. unfold it_add, begin; simpl. rewrite Z.add_0_l.
  by rewrite (proj2 (Z.leb_le 0 n)), (proj2 (Z.leb_le n _)) by lia.
Qed.

Lemma at_in_range (st : state T) (pos : Z) :
  stored st -> 0 <= pos < size_ (this st) ->
  at_ pos st = Ret {| ref_ptr := data_ (this st); ref_slot := pos |} st.
Proof.
  intros Hst Hpos. destruct (stored_data st pos Hst Hpos) as (l & Hl & Hlen).
  unfold at_. rewrite (proj2 (Z.leb_gt _ _)) by lia.
  unfold bind. rewrite begin_add by lia.
  unfold it_star, load; simpl.
  destruct (lookup_lt_is_Some_2 _ _ Hlen) as [x Hx]. by rewrite Hx.
Qed.

Lemma at_out_of_range (st : state T) (pos : Z) :
  size_ (this st) <= pos -> at_ pos st = Throw out_of_range st.
Proof. intros Hpos. unfold at_. by rewrite (proj2 (Z.leb_le _ _)). Qed.

(** C5: at(pos) and operator[](pos) throw OutOfRange exactly when
    pos >= size(), and otherwise return a reference to the element at pos;
    front() and back() throw OutOfRange on an empty vector. *)
Theorem at_checked (st : state T) (pos : Z) :
  stored st -> 0 <= pos ->
  (at_ pos st = Throw out_of_range st <-> size (this st) <= pos)
  /\ subscript pos st = at_ pos st
  /\ (pos < size (this st) ->
      exists r x, at_ pos st = Ret r st
                  /\ deref (mem st) r = Some x
                  /\ elements st !! Z.to_nat pos = Some x)
  /\ (size (this st) = 0 ->
      front st = Throw out_of_range st /\ back st = Throw out_of_range st).
Proof.
  intros Hst Hpos. unfold size. repeat split.
  - intros Hthrow. destruct (decide (size_ (this st) <= pos)) as [|Hlt]; [done|].
    rewrite at_in_range in Hthrow by (done || lia). discriminate.
  - apply at_out_of_range.
  - intros Hlt. destruct (stored_data st pos Hst) as (l & Hl & Hlen); [lia|].
    destruct (lookup_lt_is_Some_2 _ _ Hlen) as [x Hx].
    exists {| ref_ptr := data_ (this st); ref_slot := pos |}, x.
    split; [apply at_in_range; done || lia|]. split; [done|].
    unfold elements. rewrite lookup_take_lt by lia. done.
  - unfold front. apply at_out_of_range. lia.
  - unfold back. apply at_out_of_range.
    pose proof (wrap_range (size_ (this st) - 1)). lia.
Qed.

(** ** set_element *)

(** C9: set_element(pos, value) with pos < size() overwrites the element at
    pos and leaves the other elements, size and capacity as they were; with
    pos >= size() it throws OutOfRange and leaves the vector unchanged. *)
Theorem set_element_frame (st : state T) (pos : Z) (value : T) :
  stored st -> 0 <= pos ->
  (pos < size (this st) ->
     exists st', set_element pos value st = Ret tt st'
       /\ size (this st') = size (this st)
       /\ capacity (this st') = capacity (this st)
       /\ elements st' !! Z.to_nat pos = Some value
       /\ (forall j : nat, j <> Z.to_nat pos -> elements st' !! j = elements st !! j)
       /\ elements st' = <[Z.to_nat pos := value]> (elements st))
  /\ (size (this st) <= pos -> set_element pos value st = Throw out_of_range st).
Proof.
  intros Hst Hpos. unfold size, capacity. split.
  - intros Hlt. destruct (stored_data st pos Hst) as (l & Hl & Hlen); [lia|].
    unfold set_element, bind. rewrite at_in_range by (done || lia). simpl.
    unfold on_mem. rewrite (store_Some _ _ _ _ l Hl Hlen). simpl.
    eexists. split; [reflexivity|]. simpl.
    assert (Hel : elements
              {| this := this st;
                 mem := <[l := <[Z.to_nat pos := value]> (block (mem st) (data_ (this st)))]> (mem st) |}
            = <[Z.to_nat pos := value]> (elements st)).
    { unfold elements; simpl. rewrite Hl.
      rewrite block_insert by (apply block_valid; rewrite <- Hl; lia).
      rewrite take_insert_lt by lia. done. }
    rewrite Hel. repeat split; try done.
    + apply list_lookup_insert_eq. unfold elements. rewrite length_take. lia.
    + intros j Hj. by rewrite list_lookup_insert_ne.
  - intros Hge. unfold set_element, bind. by rewrite at_out_of_range.
Qed.

(** ** Move construction *)

(** C10: Vector b(move(a)) gives b the capacity size(a) (the unused capacity
    of a is dropped) and the elements of a in order, and leaves a with
    size() = 0 and capacity() = 0. *)
Theorem Vector_move_spec (a : Vector) (h : heap) :
  capacity (Vector_move a).1 = size a
  /\ size (Vector_move a).1 = size a
  /\ elements {| this := (Vector_move a).1; mem := h |} = elements {| this := a; mem := h |}
  /\ size (Vector_move a).2 = 0
  /\ capacity (Vector_move a).2 = 0.
Proof. by unfold Vector_move, elements, size, capacity. Qed.

(** ** reserve and shrink_to_fit *)

(** Copying into a block that was just allocated at the end of the store. *)
Lemma std_copy_fresh (h : heap) (src : option nat) (n : Z) (blk : list T) :
  0 <= n ->
  (Z.to_nat n <= length (block h src))%nat ->
  (Z.to_nat n <= length blk)%nat ->
  std_copy src n (Some (length h)) (h ++ [blk])
  = Some (h ++ [take (Z.to_nat n) (block h src) ++ drop (Z.to_nat n) blk]).
Proof.
  intros Hn Hsrc Hblk. unfold std_copy.
  destruct (n =? 0) eqn:E.
  - apply Z.eqb_eq in E. subst n. done.
  - apply Z.eqb_neq in E.
    rewrite block_new, block_app by lia.
    rewrite decide_True by done. f_equal.
    rewrite insert_app_r_alt by lia. by rewrite Nat.sub_diag.
Qed.

Lemma reserve_noop (st : state T) (c : Z) :
  requested c <= capacity (this st) -> reserve c st = Ret tt st.
Proof.
  intros Hc. unfold reserve. fold (requested c).
  by rewrite (proj2 (Z.ltb_ge _ _)).
Qed.

Lemma assign_data_new (v : Vector) (h : heap) (b : list T) :
  assign_data (Some (length h)) {| this := v; mem := h ++ [b] |}
  = Ret tt {| this := set_data (Some (length h)) v;
              mem := release (data_ v) h ++ [b] |}.
Proof.
  unfold assign_data. cbn [this mem]. do 2 f_equal.
  case_bool_decide as Hd.
  - rewrite Hd. by rewrite release_dangling.
  - by apply release_snoc.
Qed.

Lemma allocate_vector_ok (n : Z) (st : state T) :
  alloc_ok n = true ->
  allocate_vector n st
  = Ret tt {| this := set_data (Some (length (mem st))) (this st);
              mem := release (data_ (this st)) (mem st)
                     ++ [replicate (Z.to_nat n) dflt] |}.
Proof.
  intros Hok. unfold allocate_vector, new_array. rewrite Hok.
  apply assign_data_new.
Qed.

Lemma allocate_vector_fail (n : Z) (st : state T) :
  alloc_ok n = false -> allocate_vector n st = Throw runtime_error st.
Proof. intros Hok. unfold allocate_vector, new_array. by rewrite Hok. Qed.

Lemma Vector_copy_ok (v : Vector) (h : heap) :
  alloc_ok (size_ v) = true ->
  0 <= size_ v <= Z.of_nat (length (block h (data_ v))) ->
  Vector_copy v h
  = Ret {| data_ := Some (length h); size_ := size_ v; capacity_ := size_ v |}
        (h ++ [take (Z.to_nat (size_ v)) (block h (data_ v))]).
Proof.
  intros Hok Hs. unfold Vector_copy, construct, bind.
  rewrite allocate_vector_ok by done. unfold on_mem; simpl.
  rewrite std_copy_fresh by (rewrite ?length_replicate; lia). simpl.
  by rewrite drop_replicate, Nat.sub_diag, app_nil_r.
Qed.

Lemma Vector_copy_fail (v : Vector) (h : heap) :
  alloc_ok (size_ v) = false -> Vector_copy v h = Throw runtime_error h.
Proof.
  intros Hok. unfold Vector_copy, construct, bind.
  by rewrite allocate_vector_fail.
Qed.

(** The copy [tmp] of reserve lands behind the store; giving up a block of
    the store leaves it alone. *)
Lemma release_copy (st : state T) :
  stored st ->
  release (data_ (this st))
    (mem st ++ [take (Z.to_nat (size_ (this st))) (block (mem st) (data_ (this st)))])
  = release (data_ (this st)) (mem st)
    ++ [take (Z.to_nat (size_ (this st))) (block (mem st) (data_ (this st)))].
Proof.
  intros Hst. unfold stored, block_len in Hst.
  destruct (decide (data_ (this st) = Some (length (mem st)))) as [Hd|Hd];
    [|by apply release_snoc].
  rewrite Hd in Hst |- *.
  assert (Hb : block (mem st) (Some (length (mem st))) = []).
  { unfold block. by rewrite lookup_ge_None_2 by lia. }
  rewrite Hb, take_nil. rewrite (release_dangling _ (mem st)) by lia.
  unfold release. destruct (pinned _); [done|apply free_new].
Qed.

Lemma reserve_grow (st : state T) (c : Z) :
  stored st ->
  capacity (this st) < requested c ->
  size_ (this st) <= requested c ->
  alloc_ok (size_ (this st)) = true ->
  alloc_ok (requested c) = true ->
  reserve c st
  = Ret tt
      {| this := {| data_ := Some (S (length (mem st)));
                    size_ := size_ (this st);
                    capacity_ := requested c |};
         mem := release (data_ (this st)) (mem st)
                ++ [[]]
                ++ [grown (size_ (this st)) (requested c)
                      (block (mem st) (data_ (this st)))] |}.
Proof.
  intros Hst Hc Hs Hok1 Hok2. unfold reserve. fold (requested c).
  rewrite (proj2 (Z.ltb_lt _ _)) by done.
  pose proof (release_copy st Hst) as Hrel.
  unfold stored, block_len in Hst.
  unfold bind, local. rewrite Vector_copy_ok by (done || lia).
  unfold scoped, bind, modify_this. cbn [this mem data_ size_ capacity_].
  rewrite allocate_vector_ok by done.
  cbn [this mem data_ size_ capacity_ set_data set_capacity].
  rewrite Hrel. unfold on_mem. cbn [this mem data_ size_ capacity_].
  set (R := release (data_ (this st)) (mem st)).
  assert (HR : length (mem st) = length R) by (symmetry; apply length_release).
  rewrite length_app, HR. cbn [length]. rewrite Nat.add_1_r.
  replace (S (length R)) with (length (R ++ [take (Z.to_nat (size_ (this st)))
                                               (block (mem st) (data_ (this st)))]))
    by (rewrite length_app; simpl; lia).
  rewrite std_copy_fresh;
    [|lia|rewrite block_new, length_take; lia|rewrite length_replicate; lia].
  rewrite block_new, take_take, Nat.min_id, drop_replicate.
  cbn [this mem]. rewrite free_snoc
    by (rewrite length_app; simpl; intros [=]; lia).
  rewrite free_new. rewrite length_app; simpl. rewrite Nat.add_1_r.
  by rewrite <- (assoc_L (++)).
Qed.

(** Growth when the second allocation is refused: the exception leaves
    [capacity_] already overwritten. *)
Lemma reserve_alloc_failure (st : state T) (c : Z) :
  stored st ->
  capacity (this st) < requested c ->
  alloc_ok (size_ (this st)) = true ->
  alloc_ok (requested c) = false ->
  reserve c st
  = Throw runtime_error
      {| this := set_capacity (requested c) (this st);
         mem := mem st ++ [[]] |}.
Proof.
  intros Hst Hc Hok1 Hok2. unfold reserve. fold (requested c).
  rewrite (proj2 (Z.ltb_lt _ _)) by done.
  unfold stored, block_len in Hst.
  unfold bind, local. rewrite Vector_copy_ok by (done || lia).
  unfold scoped, bind, modify_this. cbn [this mem data_ size_ capacity_].
  rewrite allocate_vector_fail by done. cbn [this mem].
  by rewrite free_new.
Qed.

Lemma reserve_copy_failure (st : state T) (c : Z) :
  capacity (this st) < requested c ->
  alloc_ok (size_ (this st)) = false ->
  reserve c st = Throw runtime_error st.
Proof.
  intros Hc Hok1. unfold reserve. fold (requested c).
  rewrite (proj2 (Z.ltb_lt _ _)) by done.
  unfold bind, local. rewrite Vector_copy_fail by done. by destruct st.
Qed.

Lemma elements_grown (st : state T) (c : Z) (l : nat) (h : list (list T)) :
  stored st ->
  size_ (this st) <= c ->
  length h = l ->
  elements {| this := {| data_ := Some l; size_ := size_ (this st); capacity_ := c |};
              mem := h ++ [grown (size_ (this st)) c (block (mem st) (data_ (this st)))] |}
  = elements st.
Proof.
  intros Hst Hs <-. unfold stored, block_len in Hst.
  unfold elements, grown; simpl.
  rewrite list_lookup_middle by done. simpl.
  rewrite take_app_le by (rewrite length_take; lia).
  rewrite take_take. f_equal. lia.
Qed.

Lemma shrink_to_fit_noop (st : state T) :
  capacity_ (this st) <= size_ (this st) -> shrink_to_fit st = Ret tt st.
Proof. intros Hc. unfold shrink_to_fit. by rewrite (proj2 (Z.ltb_ge _ _)). Qed.

Lemma shrink_to_fit_shrinks (st : state T) :
  stored st ->
  size_ (this st) < capacity_ (this st) ->
  alloc_ok (size_ (this st)) = true ->
  shrink_to_fit st
  = Ret tt
      {| this := {| data_ := Some (length (mem st));
                    size_ := size_ (this st);
                    capacity_ := size_ (this st) |};
         mem := release (data_ (this st)) (mem st)
                ++ [take (Z.to_nat (size_ (this st))) (block (mem st) (data_ (this st)))] |}.
Proof.
  intros Hst Hc Hok. unfold stored, block_len in Hst.
  unfold shrink_to_fit. rewrite (proj2 (Z.ltb_lt _ _)) by done.
  unfold bind, modify_this, new_array; simpl. rewrite Hok.
  unfold on_mem; simpl.
  rewrite std_copy_fresh by (rewrite ?length_replicate; lia).
  rewrite drop_replicate, Nat.sub_diag, app_nil_r.
  by rewrite assign_data_new.
Qed.

Lemma shrink_to_fit_alloc_failure (st : state T) :
  size_ (this st) < capacity_ (this st) ->
  alloc_ok (size_ (this st)) = false ->
  shrink_to_fit st
  = Throw bad_alloc {| this := set_capacity (size_ (this st)) (this st); mem := mem st |}.
Proof.
  intros Hc Hok. unfold shrink_to_fit. rewrite (proj2 (Z.ltb_lt _ _)) by done.
  unfold bind, modify_this, new_array; simpl. by rewrite Hok.
Qed.

Lemma requested_nonzero (c : Z) : c <> 0 -> requested c = c.
Proof. intros Hc. unfold requested. by rewrite (proj2 (Z.eqb_neq _ _)). Qed.

Lemma grown_length (s c : Z) (b : list T) :
  0 <= s <= c -> s <= Z.of_nat (length b) ->
  Z.of_nat (length (grown s c b)) = c.
Proof.
  intros Hs Hb. unfold grown. rewrite length_app, length_take, length_replicate. lia.
Qed.

Lemma grown_take (s c : Z) (b : list T) :
  0 <= s <= c -> s <= Z.of_nat (length b) ->
  take (Z.to_nat s) (grown s c b) = take (Z.to_nat s) b.
Proof.
  intros Hs Hb. unfold grown.
  rewrite take_app_le by (rewrite length_take; lia). by rewrite take_take, Nat.min_id.
Qed.

Lemma block_len_grown (st : state T) (c : Z) (l : nat) (h : list (list T)) :
  stored st ->
  size_ (this st) <= c ->
  length h = l ->
  block_len
    {| this := {| data_ := Some l; size_ := size_ (this st); capacity_ := c |};
       mem := h ++ [grown (size_ (this st)) c (block (mem st) (data_ (this st)))] |}
  = c.
Proof.
  intros Hst Hs <-. unfold stored, block_len in *; simpl.
  rewrite list_lookup_middle by done. simpl. unfold grown.
  rewrite length_app, length_take, length_replicate. lia.
Qed.

(** The store a growth leaves: the blocks that were there, the released copy
    [tmp], and the new block. *)
Lemma length_grown_store (h : heap) (b : list T) :
  length (h ++ [b]) = S (length h).
Proof. rewrite length_app. simpl. lia. Qed.

(** C7, for a vector that meets the data model (size <= capacity <=
    allocated slots): reserve(c) never decreases capacity(); c = 0 is a request
    for 2; a request above capacity() whose allocations are granted makes the
    capacity exactly the request, in a block of that many slots, and keeps the
    elements in order; a request that is not above capacity() does nothing.  shrink_to_fit() never increases capacity() and
    always leaves capacity() = size() with the elements kept, whether it
    returns or its allocation is refused; when it returns and there was unused
    capacity, the elements are in a block of exactly size() slots. *)
Theorem reserve_shrink_capacity (st : state T) (c : Z) :
  wf st ->
  (exists s1, final_state (reserve c st) = Some s1
              /\ capacity (this st) <= capacity (this s1))
  /\ reserve 0 st = reserve 2 st
  /\ (c <> 0 -> c <= capacity (this st) -> reserve c st = Ret tt st)
  /\ (c <> 0 -> capacity (this st) < c ->
      alloc_ok (size (this st)) = true -> alloc_ok c = true ->
      exists s1, reserve c st = Ret tt s1
                 /\ capacity (this s1) = c
                 /\ block_len s1 = c
                 /\ size (this s1) = size (this st)
                 /\ elements s1 = elements st)
  /\ (exists s2, final_state (shrink_to_fit st) = Some s2
                 /\ capacity (this s2) <= capacity (this st)
                 /\ capacity (this s2) = size (this s2)
                 /\ size (this s2) = size (this st)
                 /\ elements s2 = elements st)
  /\ (alloc_ok (size (this st)) = true ->
      exists s2, shrink_to_fit st = Ret tt s2
                 /\ capacity (this s2) = size (this s2)
                 /\ size (this s2) = size (this st)
                 /\ elements s2 = elements st
                 /\ capacity (this s2) <= block_len s2
                 /\ (size (this st) < capacity (this st) ->
                     block_len s2 = size (this st))).
Proof.
  intros (Hsz & Hcap & Hmax). unfold size, capacity in *.
  assert (Hst : stored st) by (unfold stored; lia).
  split; [|split; [|split; [|split; [|split]]]].
  - destruct (decide (requested c <= capacity_ (this st))) as [Hle|Hgt].
    + rewrite reserve_noop by done. exists st. split; [done|lia].
    + destruct (alloc_ok (size_ (this st))) eqn:Hok1.
      * destruct (alloc_ok (requested c)) eqn:Hok2.
        -- rewrite reserve_grow by (done || unfold capacity; lia).
           eexists; split; [done|]. simpl. lia.
        -- rewrite reserve_alloc_failure by (done || unfold capacity; lia).
           eexists; split; [done|]. simpl. lia.
      * rewrite reserve_copy_failure by (done || unfold capacity; lia).
        exists st. split; [done|lia].
  - done.
  - intros Hc0 Hc. apply reserve_noop. by rewrite requested_nonzero.
  - intros Hc0 Hc Hok1 Hok2.
    rewrite reserve_grow
      by (rewrite ?requested_nonzero by done; done || unfold capacity; lia).
    rewrite requested_nonzero by done.
    eexists; split; [done|]. cbn [this capacity_ size_]. split; [done|].
    rewrite (assoc_L (++)).
    split; [|split; [done|]].
    + apply block_len_grown; [done|lia|].
      by rewrite length_grown_store, length_release.
    + apply elements_grown; [done|lia|].
      by rewrite length_grown_store, length_release.
  - destruct (decide (capacity_ (this st) <= size_ (this st))) as [Hle|Hgt].
    + rewrite shrink_to_fit_noop by done. exists st.
      split; [done|]. split; [lia|]. split; [lia|]. by split.
    + destruct (alloc_ok (size_ (this st))) eqn:Hok.
      * rewrite shrink_to_fit_shrinks by (done || lia).
        eexists; split; [done|]. cbn [this capacity_ size_].
        split; [lia|]. split; [done|]. split; [done|].
        unfold elements at 1. cbn [this mem data_ size_].
        rewrite <- (length_release (data_ (this st)) (mem st)), block_new.
        by rewrite take_take, Nat.min_id.
      * rewrite shrink_to_fit_alloc_failure by (done || lia).
        eexists; split; [done|]. cbn [this capacity_ size_ set_capacity].
        split; [lia|]. by repeat split.
  - intros Hok.
    destruct (decide (capacity_ (this st) <= size_ (this st))) as [Hle|Hgt].
    + rewrite shrink_to_fit_noop by done. exists st.
      split; [done|]. split; [lia|]. split; [done|]. split; [done|]. split; lia.
    + rewrite shrink_to_fit_shrinks by (done || lia).
      eexists; split; [done|]. cbn [this capacity_ size_].
      split; [done|]. split; [done|].
      assert (Hnew : block (release (data_ (this st)) (mem st)
                            ++ [take (Z.to_nat (size_ (this st)))
                                  (block (mem st) (data_ (this st)))])
                       (Some (length (mem st)))
                     = take (Z.to_nat (size_ (this st)))
                         (block (mem st) (data_ (this st)))).
      { rewrite <- (length_release (data_ (this st)) (mem st)). apply block_new. }
      unfold elements at 1, block_len. cbn [this mem data_ size_].
      rewrite Hnew, take_take, Nat.min_id, length_take.
      unfold block_len in Hcap. split; [done|]. split; lia.
Qed.

(** ** Reading an argument *)

Lemma read_arg_cases (a : operand T) (st : state T) :
  read_arg a st = Undefined \/ exists x, read_arg a st = Ret x st.
Proof.
  unfold read_arg. destruct a as [x|r]; [right; by exists x|].
  destruct (deref (mem st) r) as [x|]; [right; by exists x|by left].
Qed.

Lemma read_arg_value (a : operand T) (st : state T) (x : T) :
  value_of (mem st) a = Some x -> read_arg a st = Ret x st.
Proof.
  unfold read_arg, value_of. destruct a as [y|r]; [by intros [= ->]|].
  by intros ->.
Qed.

Lemma write_step (p n : nat) (x : T) (xs b : list T) :
  (p < length b)%nat ->
  take (S p) (<[p := x]> b) ++ xs ++ drop (S p + n) (<[p := x]> b)
  = take p b ++ (x :: xs) ++ drop (p + S n) b.
Proof.
  intros Hp.
  rewrite (take_S_r _ p x) by (apply list_lookup_insert_eq; lia).
  rewrite take_insert_ge, drop_insert_lt by lia.
  rewrite <- (assoc_L (++)). simpl. do 3 f_equal. f_equal. lia.
Qed.

(** ** Indexing through an iterator *)

(** The loops of erase and insert_many index one block through [it]; their
    effect is stated on that block, [b], stored at [l]. *)
Section OneBlock.

Variable it : VectorIterator.
Variable l : nat.
Variable v : Vector.
Variable h : heap.
Hypothesis it_ptr : ptr_ it = Some l.
Hypothesis l_valid : (l < length h)%nat.

Lemma it_get_block (b : list T) (i : Z) (x : T) :
  b !! Z.to_nat i = Some x ->
  it_get it i (with_block l v h b) = Ret x (with_block l v h b).
Proof.
  intros Hx. unfold it_get, load, with_block; simpl.
  by rewrite it_ptr, block_insert, Hx.
Qed.

Lemma it_set_block (b : list T) (i : Z) (x : T) :
  (Z.to_nat i < length b)%nat ->
  it_set it i x (with_block l v h b) = Ret tt (with_block l v h (<[Z.to_nat i := x]> b)).
Proof.
  intros Hi. unfold it_set, on_mem, with_block; simpl.
  rewrite (store_Some _ _ _ _ l it_ptr) by (rewrite it_ptr, block_insert; done).
  by rewrite it_ptr, block_insert, list_insert_insert_eq.
Qed.

Lemma erase_loop_block (k i : nat) (b : list T) :
  (i + k < length b)%nat ->
  Z.of_nat (i + k) <= SIZE_MAX ->
  erase_loop it k (Z.of_nat i) (with_block l v h b)
  = Ret tt (with_block l v h (take i b ++ take k (drop (S i) b) ++ drop (i + k) b)).
Proof.
  revert i b. induction k as [|k IH]; intros i b Hlen Hmax.
  - simpl. unfold ret. by rewrite Nat.add_0_r, take_drop.
  - simpl. unfold bind.
    rewrite (wrap_small (Z.of_nat i + 1)) by lia.
    destruct (lookup_lt_is_Some_2 b (S i)) as [x Hx]; [lia|].
    rewrite (it_get_block b _ x) by (by replace (Z.to_nat (Z.of_nat i + 1)) with (S i) by lia).
    rewrite it_set_block by lia.
    replace (Z.of_nat i + 1) with (Z.of_nat (S i)) by lia.
    rewrite IH by (rewrite ?length_insert; lia).
    do 2 f_equal. rewrite Nat2Z.id.
    rewrite (take_S_r _ i x) by (apply list_lookup_insert_eq; lia).
    rewrite take_insert_ge, !drop_insert_lt by lia.
    rewrite (drop_S b x (S i)) by done.
    rewrite <- (assoc_L (++)). simpl. do 3 f_equal. f_equal. lia.
Qed.

Lemma shift_loop_block (n k i : nat) (b : list T) :
  (k + n <= S i)%nat ->
  (i < length b)%nat ->
  Z.of_nat i <= SIZE_MAX ->
  shift_loop it (Z.of_nat n) k (Z.of_nat i) (with_block l v h b)
  = Ret tt (with_block l v h (take (S i - k) b
                        ++ take k (drop (S i - k - n) b)
                        ++ drop (S i) b)).
Proof.
  revert i b. induction k as [|k IH]; intros i b Hk Hlen Hmax.
  - cbn [shift_loop]. unfold ret. rewrite Nat.sub_0_r, take_0, app_nil_l.
    by rewrite take_drop.
  - cbn [shift_loop]. unfold bind.
    rewrite (wrap_small (Z.of_nat i - Z.of_nat n)) by lia.
    destruct (lookup_lt_is_Some_2 b (i - n)) as [x Hx]; [lia|].
    rewrite (it_get_block b _ x)
      by (by replace (Z.to_nat (Z.of_nat i - Z.of_nat n)) with (i - n)%nat by lia).
    rewrite it_set_block by lia. rewrite Nat2Z.id.
    assert (Hb : take (S i - S k) b ++ take (S k) (drop (S i - S k - n) b) ++ drop (S i) b
                 = take (i - k) b ++ take k (drop (i - k - n) b) ++ x :: drop (S i) b).
    { replace (S i - S k)%nat with (i - k)%nat by lia.
      rewrite (take_S_r _ k x)
        by (rewrite lookup_drop, <- Hx; f_equal; lia).
      by rewrite <- (assoc_L (++)). }
    rewrite Hb. destruct k as [|k'].
    + simpl. unfold ret. do 2 f_equal.
      rewrite Nat.sub_0_r. by apply insert_take_drop.
    + destruct i as [|i']; [lia|].
      rewrite (wrap_small (Z.of_nat (S i') - 1)) by lia.
      replace (Z.of_nat (S i') - 1) with (Z.of_nat i') by lia.
      rewrite IH by (rewrite ?length_insert; lia).
      do 2 f_equal.
      replace (S i' - S k')%nat with (i' - k')%nat by lia.
      rewrite take_insert_ge by lia.
      rewrite (drop_insert_ge _ (i' - k' - n)), take_insert_ge by lia.
      rewrite drop_insert_ge, Nat.sub_diag by lia.
      destruct (lookup_lt_is_Some_2 b (S i')) as [y Hy]; [lia|].
      by rewrite (drop_S b y (S i') Hy).
Qed.


(** The fold over any arguments: it reads a dangling reference, or it writes
    the values it read. *)
Lemma write_args_any (args : list (operand T)) :
  forall (p : nat) (b : list T),
    (p + length args <= length b)%nat ->
    Z.of_nat (p + length args) <= SIZE_MAX ->
    write_args it (Z.of_nat p) args (with_block l v h b) = Undefined
    \/ exists xs,
         length xs = length args
         /\ write_args it (Z.of_nat p) args (with_block l v h b)
            = Ret tt (with_block l v h (take p b ++ xs ++ drop (p + length args) b)).
Proof.
  induction args as [|a args IH]; intros p b Hlen Hmax.
  - right. exists []. split; [done|].
    cbn [write_args]. unfold ret. by rewrite Nat.add_0_r, app_nil_l, take_drop.
  - cbn [write_args length] in *. unfold bind.
    destruct (read_arg_cases a (with_block l v h b)) as [->|[x ->]]; [by left|].
    rewrite it_set_block by lia. rewrite Nat2Z.id.
    rewrite (wrap_small (Z.of_nat p + 1)) by lia.
    replace (Z.of_nat p + 1) with (Z.of_nat (S p)) by lia.
    destruct (IH (S p) (<[p := x]> b)) as [->|(xs & Hxs & ->)];
      [rewrite length_insert; lia|lia|by left|].
    right. exists (x :: xs). split; [simpl; lia|].
    do 2 f_equal. apply write_step. lia.
Qed.

End OneBlock.

(** A vector whose block has a slot is at a block of the store. *)
Lemma state_with_block (st : state T) :
  (0 < length (block (mem st) (data_ (this st))))%nat ->
  exists l, data_ (this st) = Some l
            /\ (l < length (mem st))%nat
            /\ st = with_block l (this st) (mem st) (block (mem st) (data_ (this st))).
Proof.
  intros Hb. destruct (data_ (this st)) as [l|] eqn:E; [|simpl in Hb; lia].
  pose proof (block_valid _ _ Hb) as Hl. exists l. repeat split; [done|].
  unfold with_block. destruct st as [v h]; simpl in *. f_equal.
  destruct (lookup_lt_is_Some_2 h l Hl) as [b Hbl].
  unfold block. rewrite Hbl. simpl. by rewrite list_insert_id.
Qed.

Lemma elements_with_block (l : nat) (v : Vector) (h : heap) (b : list T) :
  data_ v = Some l -> (l < length h)%nat ->
  elements (with_block l v h b) = take (Z.to_nat (size_ v)) b.
Proof.
  intros Hd Hl. unfold elements, with_block; simpl. by rewrite Hd, block_insert.
Qed.

(** ** erase *)

Lemma erase_block (l : nat) (v : Vector) (h : heap) (b : list T) (pos : VectorIterator) :
  data_ v = Some l -> (l < length h)%nat ->
  0 <= index_ pos < size_ v ->
  size_ v <= Z.of_nat (length b) ->
  size_ v <= SIZE_MAX ->
  erase pos (with_block l v h b)
  = Ret tt
      (with_block l (set_size (size_ v - 1) v) h
         (take (Z.to_nat (index_ pos)) b
          ++ take (Z.to_nat (size_ v - 1 - index_ pos)) (drop (S (Z.to_nat (index_ pos))) b)
          ++ drop (Z.to_nat (index_ pos) + Z.to_nat (size_ v - 1 - index_ pos)) b)).
Proof.
  intros Hd Hl Hp Hs Hmax.
  unfold erase, distance, begin, size, bind; simpl. rewrite Z.sub_0_r.
  rewrite (wrap_small (index_ pos)), (wrap_small (size_ v - 1)) by lia.
  replace (index_ pos) with (Z.of_nat (Z.to_nat (index_ pos))) at 2 by lia.
  rewrite (erase_loop_block _ l) by (done || lia).
  unfold modify_this, with_block; simpl.
  by rewrite (wrap_small (size_ v - 1)) by lia.
Qed.

(** C8: erase(pos) at offset p < size() moves every element after p one slot
    to the left, keeps the elements before p, and decrements size. *)
Theorem erase_shifts_left (st : state T) (pos : VectorIterator) (p : Z) :
  stored st ->
  index_ pos = p ->
  0 <= p < size (this st) ->
  exists st', erase pos st = Ret tt st'
    /\ size (this st') = size (this st) - 1
    /\ capacity (this st') = capacity (this st)
    /\ elements st'
       = take (Z.to_nat p) (elements st) ++ drop (S (Z.to_nat p)) (elements st)
    /\ (forall j : nat, (j < Z.to_nat p)%nat -> elements st' !! j = elements st !! j)
    /\ (forall i : nat, (Z.to_nat p <= i)%nat -> elements st' !! i = elements st !! S i).
Proof.
  intros Hst <- Hp. unfold size, capacity in *.
  pose proof Hst as ((Hs0 & Hs) & Hmax). unfold block_len in Hs.
  destruct (state_with_block st) as (l & Hd & Hl & Hwb); [lia|].
  pose proof (erase_block l (this st) (mem st) _ pos Hd Hl Hp Hs Hmax) as Herase.
  rewrite <- Hwb in Herase.
  eexists. split; [exact Herase|].
  split; [done|]. split; [done|].
  match goal with |- ?E /\ _ => assert (Hels : E) end.
  { rewrite elements_with_block by done. simpl. unfold elements.
    rewrite (assoc_L (++)), take_app_length'.
    - rewrite take_take, skipn_firstn_comm. do 2 f_equal; lia.
    - rewrite length_app, !length_take, length_drop. lia. }
  assert (Hlen : length (take (Z.to_nat (index_ pos)) (elements st))
                 = Z.to_nat (index_ pos)).
  { rewrite length_take. unfold elements. rewrite length_take. lia. }
  split; [done|]. rewrite Hels. split.
  - intros j Hj. rewrite lookup_app_l by lia. by rewrite lookup_take_lt.
  - intros i Hi. rewrite lookup_app_r by lia. rewrite Hlen, lookup_drop. f_equal. lia.
Qed.

(** ** insert_many *)

(** insert_many_place up to the end of the shifting loop. *)
Lemma insert_many_place_shift (l : nat) (v : Vector) (h : heap) (b : list T)
    (pos : VectorIterator) (args : list (operand T)) (p : nat) :
  data_ v = Some l -> (l < length h)%nat ->
  (0 < length args)%nat ->
  0 <= size_ v ->
  Z.of_nat p <= size_ v ->
  size_ v + Z.of_nat (length args) <= Z.of_nat (length b) ->
  size_ v + Z.of_nat (length args) <= SIZE_MAX ->
  insert_many_place (Z.of_nat p) (Z.of_nat (length args)) args pos (with_block l v h b)
  = (do_ write_args {| ptr_ := Some l; bound_ := size_ v; index_ := Z.of_nat p |}
           (Z.of_nat p) args;
     do_ (fun st => modify_this (set_size (wrap (size_ (this st) + Z.of_nat (length args)))) st);
     ret pos)
      (with_block l v h
         (take (p + length args) b
          ++ take (Z.to_nat (size_ v) - p) (drop p b)
          ++ drop (Z.to_nat (size_ v) + length args) b)).
Proof.
  intros Hd Hl Hn Hs0 Hp Hlen Hmax.
  unfold insert_many_place. unfold bind at 1. rewrite begin_add by (simpl; lia).
  unfold bind at 1. unfold size. cbn [this with_block].
  rewrite (wrap_small (size_ v + _ - 1)), (wrap_small (Z.of_nat p + _)) by lia.
  rewrite (proj2 (Z.eqb_neq _ 0)) by lia.
  replace (size_ v + Z.of_nat (length args) - 1)
    with (Z.of_nat (Z.to_nat (size_ v) + length args - 1)) by lia.
  fold (with_block l v h b).
  rewrite (shift_loop_block _ l) by (done || rewrite ?Hd; done || lia).
  rewrite Hd.
  replace (S (Z.to_nat (size_ v) + length args - 1)
           - Z.to_nat (Z.of_nat (Z.to_nat (size_ v) + length args - 1)
                       - (Z.of_nat p + Z.of_nat (length args)) + 1))%nat
    with (p + length args)%nat by lia.
  replace (Z.to_nat (Z.of_nat (Z.to_nat (size_ v) + length args - 1)
                     - (Z.of_nat p + Z.of_nat (length args)) + 1))
    with (Z.to_nat (size_ v) - p)%nat by lia.
  replace (p + length args - length args)%nat with p by lia.
  replace (S (Z.to_nat (size_ v) + length args - 1))
    with (Z.to_nat (size_ v) + length args)%nat by lia.
  done.
Qed.

Lemma placed_shifted (p s : nat) (xs b : list T) :
  (p <= s)%nat -> (s + length xs <= length b)%nat ->
  take p (take (p + length xs) b ++ take (s - p) (drop p b) ++ drop (s + length xs) b)
  ++ xs
  ++ drop (p + length xs)
       (take (p + length xs) b ++ take (s - p) (drop p b) ++ drop (s + length xs) b)
  = placed p s xs b.
Proof.
  intros Hp Hlen. unfold placed.
  rewrite take_app_le by (rewrite length_take; lia).
  rewrite take_take, drop_app_length' by (rewrite length_take; lia).
  do 2 f_equal. lia.
Qed.


Lemma insert_many_place_block_any (l : nat) (v : Vector) (h : heap) (b : list T)
    (pos : VectorIterator) (args : list (operand T)) (p : nat) :
  data_ v = Some l -> (l < length h)%nat ->
  (0 < length args)%nat ->
  0 <= size_ v ->
  Z.of_nat p <= size_ v ->
  size_ v + Z.of_nat (length args) <= Z.of_nat (length b) ->
  size_ v + Z.of_nat (length args) <= SIZE_MAX ->
  insert_many_place (Z.of_nat p) (Z.of_nat (length args)) args pos (with_block l v h b)
  = Undefined
  \/ exists xs,
       length xs = length args
       /\ insert_many_place (Z.of_nat p) (Z.of_nat (length args)) args pos
            (with_block l v h b)
          = Ret pos
              (with_block l (set_size (size_ v + Z.of_nat (length args)) v) h
                 (placed p (Z.to_nat (size_ v)) xs b)).
Proof.
  intros Hd Hl Hn Hs0 Hp Hlen Hmax.
  rewrite insert_many_place_shift by done. unfold bind at 1 3.
  match goal with
  | |- context [write_args ?it _ _ (with_block _ _ _ ?b1)] =>
      destruct (write_args_any it l v h eq_refl Hl args p b1) as [->|(xs & Hxs & ->)]
  end; [rewrite !length_app, !length_take, length_drop; lia|lia|by left|].
  right. exists xs. split; [done|].
  unfold bind, modify_this, ret, with_block. cbn [this mem size_].
  rewrite (wrap_small (size_ v + _)) by lia.
  rewrite <- Hxs, placed_shifted by lia. done.
Qed.

Lemma placed_length (p s : nat) (args b : list T) :
  (p <= s)%nat -> (s + length args <= length b)%nat ->
  length (placed p s args b) = length b.
Proof.
  intros Hp Hlen. unfold placed.
  rewrite !length_app, !length_take, !length_drop. lia.
Qed.

Lemma placed_take (p s : nat) (args b : list T) :
  (p <= s)%nat -> (s + length args <= length b)%nat ->
  take (s + length args) (placed p s args b)
  = take p (take s b) ++ args ++ drop p (take s b).
Proof.
  intros Hp Hlen. unfold placed.
  rewrite !(assoc_L (++)), take_app_length'.
  - rewrite take_take, skipn_firstn_comm. do 3 f_equal. lia.
  - rewrite !length_app, !length_take, length_drop. lia.
Qed.

Lemma placed_head (p s : nat) (args b : list T) :
  (p <= s)%nat -> (s <= length b)%nat ->
  placed p s args b !! p = head (args ++ take (s - p) (drop p b) ++ drop (s + length args) b).
Proof.
  intros Hp Hlen. unfold placed.
  rewrite lookup_app_r by (rewrite length_take; lia).
  rewrite length_take, Nat.min_l, Nat.sub_diag by lia.
  by destruct (args ++ _).
Qed.

Lemma elements_placed (l : nat) (v : Vector) (h : heap) (b args : list T) (p : nat) :
  data_ v = Some l -> (l < length h)%nat ->
  0 <= size_ v -> (p <= Z.to_nat (size_ v))%nat ->
  size_ v + Z.of_nat (length args) <= Z.of_nat (length b) ->
  elements {| this := set_size (size_ v + Z.of_nat (length args)) v;
              mem := <[l := placed p (Z.to_nat (size_ v)) args b]> h |}
  = take p (take (Z.to_nat (size_ v)) b) ++ args ++ drop p (take (Z.to_nat (size_ v)) b).
Proof.
  intros Hd Hl Hs0 Hp Hlen. unfold elements; simpl.
  rewrite Hd, block_insert by done.
  rewrite Z2Nat.inj_add, Nat2Z.id by lia. apply placed_take; lia.
Qed.


Lemma insert_many_place_any (st : state T) (pos : VectorIterator)
    (args : list (operand T)) (p : Z) :
  args <> [] ->
  0 <= p <= size_ (this st) ->
  size_ (this st) + Z.of_nat (length args) <= block_len st ->
  size_ (this st) + Z.of_nat (length args) <= SIZE_MAX ->
  insert_many_place p (Z.of_nat (length args)) args pos st = Undefined
  \/ exists xs l,
       length xs = length args
       /\ data_ (this st) = Some l
       /\ (l < length (mem st))%nat
       /\ insert_many_place p (Z.of_nat (length args)) args pos st
          = Ret pos
              {| this := set_size (size_ (this st) + Z.of_nat (length args)) (this st);
                 mem := <[l := placed (Z.to_nat p) (Z.to_nat (size_ (this st))) xs
                                 (block (mem st) (data_ (this st)))]> (mem st) |}.
Proof.
  intros Hargs Hp Hlen Hmax. unfold block_len in Hlen.
  assert (Hn : (0 < length args)%nat) by (destruct args; [done|simpl; lia]).
  destruct (state_with_block st) as (l & Hd & Hl & Hwb); [lia|].
  pose proof (insert_many_place_block_any l (this st) (mem st)
                (block (mem st) (data_ (this st))) pos args (Z.to_nat p)
                Hd Hl Hn) as Hplace.
  rewrite <- Hwb, Z2Nat.id in Hplace by lia.
  destruct Hplace as [Hu|(xs & Hxs & Hret)]; [lia..|by left|].
  right. exists xs, l. by repeat split.
Qed.

(** What the state insert_many_place returns looks like. *)
Lemma placed_state (st : state T) (l : nat) (xs : list T) (n : nat) (p : Z) :
  data_ (this st) = Some l -> (l < length (mem st))%nat ->
  length xs = n ->
  0 <= p <= size_ (this st) ->
  size_ (this st) + Z.of_nat n <= block_len st ->
  forall st',
    st' = {| this := set_size (size_ (this st) + Z.of_nat n) (this st);
             mem := <[l := placed (Z.to_nat p) (Z.to_nat (size_ (this st))) xs
                             (block (mem st) (data_ (this st)))]> (mem st) |} ->
    block_len st' = block_len st
    /\ elements st'
       = take (Z.to_nat p) (elements st) ++ xs ++ drop (Z.to_nat p) (elements st)
    /\ (xs <> [] -> load (mem st') (Some l) p = head xs).
Proof.
  intros Hd Hl <- Hp Hlen st' ->. unfold block_len in *. split; [|split].
  - cbn [this mem data_ set_size]. rewrite Hd in Hlen |- *.
    rewrite block_insert by done. rewrite placed_length by lia. done.
  - rewrite elements_placed by (done || lia). done.
  - intros Hxs. unfold load. cbn [mem]. rewrite block_insert by done.
    rewrite placed_head by lia. by destruct xs.
Qed.

(** ** Arguments the call does not disturb *)

(** Without growth: a reference into the buffer that lies before the first
    slot written reads the same value whatever is written from there on. *)
Lemma undisturbed_in_place (st : state T) (lo : Z) (l : nat)
    (args : list (operand T)) (xs : list T) :
  data_ (this st) = Some l ->
  (l < length (mem st))%nat ->
  Forall2 (undisturbed st false lo) args xs ->
  Forall2 (fun a x => forall b',
             take (Z.to_nat lo) b' = take (Z.to_nat lo) (block (mem st) (Some l)) ->
             value_of (<[l := b']> (mem st)) a = Some x) args xs.
Proof.
  intros Hd Hl HF. eapply Forall2_impl; [exact HF|]. clear HF.
  intros a x [Hval Hkeep] b' Hb'.
  destruct a as [y|r]; [done|]. unfold value_of, deref, load in *.
  destruct (decide (ref_ptr r = Some l)) as [Hr|Hr].
  - destruct (Hkeep l Hr Hd) as [Hr0 Hrlo]. rewrite Hr in Hval |- *.
    rewrite block_insert by done.
    rewrite <- (lookup_take_lt b' (Z.to_nat lo)) by lia.
    rewrite Hb'. by rewrite lookup_take_lt by lia.
  - by rewrite block_insert_ne.
Qed.

(** With growth: the vector moves to a new block behind a store [h'] in
    which a block of the old store is as it was unless it was the buffer and no
    one else holds it. *)
Lemma undisturbed_moved (st : state T) (h' : heap) (g : list T) (lo : Z)
    (args : list (operand T)) (xs : list T) :
  (length (mem st) <= length h')%nat ->
  (forall l0, (l0 < length (mem st))%nat ->
     (data_ (this st) = Some l0 -> pinned l0 = true) ->
     block h' (Some l0) = block (mem st) (Some l0)) ->
  Forall2 (undisturbed st true lo) args xs ->
  Forall2 (fun a x => forall b', value_of (<[length h' := b']> (h' ++ [g])) a = Some x)
    args xs.
Proof.
  intros Hlen Hkept HF. eapply Forall2_impl; [exact HF|]. clear HF.
  intros a x [Hval Hkeep] b'.
  destruct a as [y|r]; [done|]. unfold value_of, deref, load in *.
  destruct (ref_ptr r) as [l0|] eqn:Hr; [|done].
  assert (Hl0 : (l0 < length (mem st))%nat).
  { apply block_valid. apply lookup_lt_Some in Hval. lia. }
  rewrite block_insert_ne by (intros [=]; lia).
  rewrite <- Hval. f_equal.
  unfold block at 1. rewrite lookup_app_l by lia.
  apply Hkept; [done|]. intros Hd. by apply (Hkeep l0).
Qed.

Lemma block_prefix (h k : heap) (l0 : nat) :
  (l0 < length h)%nat -> block (h ++ k) (Some l0) = block h (Some l0).
Proof. intros Hl0. unfold block. by rewrite lookup_app_l. Qed.

Lemma block_released_store (st : state T) (l0 : nat) :
  (l0 < length (mem st))%nat ->
  (data_ (this st) = Some l0 -> pinned l0 = true) ->
  block (release (data_ (this st)) (mem st) ++ [[]]) (Some l0)
  = block (mem st) (Some l0).
Proof.
  intros Hl0 Hkeep. unfold block at 1.
  rewrite lookup_app_l by (rewrite length_release; lia).
  destruct (decide (data_ (this st) = Some l0)) as [Hd|Hd].
  - rewrite Hd. by apply (block_release_pinned _ _ (Some l0)), Hkeep.
  - apply (block_release_ne _ _ (Some l0)). congruence.
Qed.

(** ** insert_many_back *)

Lemma append_args_block (l : nat) (h : heap) (lo : nat) (b0 : list T)
    (args : list (operand T)) (xs : list T) :
  (l < length h)%nat ->
  Forall2 (fun a x => forall b', take lo b' = take lo b0 ->
                                 value_of (<[l := b']> h) a = Some x) args xs ->
  forall (v : Vector) (b : list T),
    data_ v = Some l ->
    0 <= size_ v ->
    (lo <= Z.to_nat (size_ v))%nat ->
    take lo b = take lo b0 ->
    size_ v + Z.of_nat (length args) <= Z.of_nat (length b) ->
    size_ v + Z.of_nat (length args) <= SIZE_MAX ->
    append_args args (with_block l v h b)
    = Ret tt
        (with_block l (set_size (size_ v + Z.of_nat (length args)) v) h
           (take (Z.to_nat (size_ v)) b ++ xs
            ++ drop (Z.to_nat (size_ v) + length args) b)).
Proof.
  intros Hl. induction 1 as [|a x args xs Hax _ IH]; intros v b Hd Hs0 Hlo Hb Hlen Hmax.
  - cbn [append_args length]. unfold ret, set_size.
    rewrite Z.add_0_r, Nat.add_0_r, app_nil_l, take_drop. by destruct v.
  - cbn [append_args length] in *. unfold bind at 1.
    unfold bind at 1. unfold modify_this. cbn [this mem with_block].
    unfold bind at 1.
    rewrite (read_arg_value a _ x) by (cbn [mem]; apply Hax, Hb).
    unfold on_mem. cbn [this mem size_ data_ set_size].
    rewrite (wrap_small (size_ v + 1)) by lia.
    rewrite (store_Some _ _ _ _ l Hd) by (rewrite Hd, block_insert by done; lia).
    rewrite Hd, block_insert, list_insert_insert_eq by done.
    fold (with_block l (set_size (size_ v + 1) v) h (<[Z.to_nat (size_ v) := x]> b)).
    rewrite IH;
      [|done|simpl; lia|simpl; lia|by rewrite take_insert_ge by lia
       |simpl; rewrite length_insert; lia|simpl; lia].
    unfold set_size, with_block; simpl. f_equal; f_equal.
    + f_equal. lia.
    + replace (Z.to_nat (size_ v + 1)) with (S (Z.to_nat (size_ v))) by lia.
      f_equal. rewrite write_step by lia. simpl. repeat f_equal; lia.
Qed.

Lemma append_args_run (st : state T) (args : list (operand T)) (xs : list T) :
  args <> [] ->
  0 <= size_ (this st) ->
  size_ (this st) + Z.of_nat (length args) <= block_len st ->
  size_ (this st) + Z.of_nat (length args) <= SIZE_MAX ->
  (forall l, data_ (this st) = Some l ->
     Forall2 (fun a x => forall b',
                take (Z.to_nat (size_ (this st))) b'
                = take (Z.to_nat (size_ (this st))) (block (mem st) (Some l)) ->
                value_of (<[l := b']> (mem st)) a = Some x) args xs) ->
  exists st', append_args args st = Ret tt st'
    /\ this st' = set_size (size_ (this st) + Z.of_nat (length args)) (this st)
    /\ block_len st' = block_len st
    /\ elements st' = elements st ++ xs.
Proof.
  intros Hargs Hs0 Hlen Hmax Hxs. unfold block_len in Hlen.
  assert (Hn : (0 < length args)%nat) by (destruct args; [done|simpl; lia]).
  destruct (state_with_block st) as (l & Hd & Hl & Hwb); [lia|].
  specialize (Hxs l Hd). rewrite <- Hd in Hxs.
  pose proof (Forall2_length _ _ _ Hxs) as Hlxs.
  pose proof (append_args_block l (mem st) _ _ args xs Hl Hxs (this st)
                (block (mem st) (data_ (this st))) Hd Hs0) as Hrun.
  rewrite <- Hwb in Hrun.
  eexists. split; [apply Hrun; (done || lia)|]. split; [done|]. split.
  - unfold block_len, with_block; simpl. rewrite Hd in Hlen |- *.
    rewrite block_insert by done.
    rewrite !length_app, length_take, length_drop. lia.
  - rewrite elements_with_block by done. simpl. unfold elements.
    rewrite Z2Nat.inj_add, Nat2Z.id by lia.
    rewrite (assoc_L (++)), take_app_length'; [done|].
    rewrite length_app, length_take. lia.
Qed.

Lemma append_args_overrun (args : list (operand T)) :
  forall st : state T,
    0 <= size_ (this st) <= block_len st ->
    size_ (this st) + Z.of_nat (length args) <= SIZE_MAX ->
    block_len st < size_ (this st) + Z.of_nat (length args) ->
    append_args args st = Undefined.
Proof.
  induction args as [|a args IH]; intros st Hs0 Hmax Hlen.
  - simpl in Hlen. lia.
  - cbn [append_args length] in *. unfold bind at 1.
    unfold bind at 1. unfold modify_this. cbn [this mem]. unfold bind at 1.
    match goal with
    | |- context [read_arg a ?s] => destruct (read_arg_cases a s) as [->|[x ->]]
    end; [done|].
    unfold on_mem; cbn [this mem]. unfold store.
    destruct (data_ (this st)) as [l|] eqn:Hd; [|done].
    destruct (decide (Z.to_nat (size_ (this st)) < length (block (mem st) (Some l)))%nat)
      as [Hin|Hout]; [|done].
    rewrite (wrap_small (size_ (this st) + 1)) by lia.
    assert (Hl : (l < length (mem st))%nat) by (apply block_valid; lia).
    assert (Hbl : block_len
              {| this := set_size (size_ (this st) + 1) (this st);
                 mem := <[l := <[Z.to_nat (size_ (this st)) := x]>
                                 (block (mem st) (Some l))]> (mem st) |}
            = block_len st).
    { unfold block_len; simpl. by rewrite Hd, block_insert, length_insert. }
    apply IH; rewrite ?Hbl; simpl; [|lia|lia].
    unfold block_len. rewrite Hd. lia.
Qed.

(** The two ways a call of insert_many_back starts on a vector meeting the
    data model: in place, and after the growth to twice the capacity. *)
Lemma insert_many_back_in_place (st : state T) (args : list (operand T)) :
  size_ (this st) <> capacity_ (this st) ->
  insert_many_back args st = append_args args st.
Proof.
  intros Hne. unfold insert_many_back, bind, size, capacity.
  by rewrite (proj2 (Z.eqb_neq _ _)).
Qed.

Lemma insert_many_back_grows (st : state T) (args : list (operand T)) :
  wf st ->
  size_ (this st) = capacity_ (this st) ->
  2 * capacity_ (this st) <= SIZE_MAX ->
  alloc_ok (size_ (this st)) = true ->
  alloc_ok (requested (2 * capacity_ (this st))) = true ->
  insert_many_back args st
  = append_args args
      {| this := {| data_ := Some (S (length (mem st)));
                    size_ := size_ (this st);
                    capacity_ := requested (2 * capacity_ (this st)) |};
         mem := (release (data_ (this st)) (mem st) ++ [[]])
                ++ [grown (size_ (this st)) (requested (2 * capacity_ (this st)))
                      (block (mem st) (data_ (this st)))] |}.
Proof.
  intros (Hsz & Hcap & Hcmax) Heq Hdbl Hok1 Hok2.
  assert (Hst : stored st) by (unfold stored; lia).
  unfold insert_many_back, bind, size, capacity.
  rewrite (proj2 (Z.eqb_eq _ _)) by done.
  rewrite (wrap_small (capacity_ (this st) * 2)) by lia.
  replace (capacity_ (this st) * 2) with (2 * capacity_ (this st)) by lia.
  assert (Hgrow : capacity (this st) < requested (2 * capacity_ (this st))).
  { unfold requested, capacity. destruct (2 * capacity_ (this st) =? 0) eqn:E0; lia. }
  rewrite reserve_grow by (done || unfold capacity in *; lia).
  by rewrite (assoc_L (++)).
Qed.

Lemma requested_double (c : Z) :
  0 <= c -> 2 * c <= SIZE_MAX ->
  c + 1 <= requested (2 * c) <= SIZE_MAX.
Proof.
  intros Hc Hmax. unfold requested, SIZE_MAX in *.
  destruct (2 * c =? 0) eqn:E0; lia.
Qed.

(** insert_many_back with arguments it does not disturb, when the batch
    fits the block the fold writes to. *)
Lemma insert_many_back_run (st : state T) (args : list (operand T)) (xs : list T) :
  wf st ->
  args <> [] ->
  (size_ (this st) = capacity_ (this st) ->
   2 * capacity_ (this st) <= SIZE_MAX
   /\ alloc_ok (size_ (this st)) = true
   /\ alloc_ok (requested (2 * capacity_ (this st))) = true) ->
  size_ (this st) + Z.of_nat (length args)
  <= (if size_ (this st) =? capacity_ (this st)
      then requested (2 * capacity_ (this st)) else block_len st) ->
  size_ (this st) + Z.of_nat (length args) <= SIZE_MAX ->
  Forall2 (undisturbed st (size_ (this st) =? capacity_ (this st)) (size_ (this st)))
    args xs ->
  exists st',
    insert_many_back args st = Ret tt st'
    /\ elements st' = elements st ++ xs
    /\ size_ (this st') = size_ (this st) + Z.of_nat (length args)
    /\ capacity_ (this st')
       = (if size_ (this st) =? capacity_ (this st)
          then requested (2 * capacity_ (this st)) else capacity_ (this st))
    /\ block_len st'
       = (if size_ (this st) =? capacity_ (this st)
          then requested (2 * capacity_ (this st)) else block_len st).
Proof.
  intros Hwf Hargs Halloc Hroom Hmax Hxs.
  pose proof Hwf as (Hsz & Hcap & Hcmax).
  assert (Hst : stored st) by (unfold stored; lia).
  assert (Hn : 0 < Z.of_nat (length args)) by (destruct args; [done|simpl; lia]).
  destruct (size_ (this st) =? capacity_ (this st)) eqn:E0.
  - apply Z.eqb_eq in E0. destruct (Halloc E0) as (Hdbl & Hok1 & Hok2).
    pose proof (requested_double (capacity_ (this st))) as Hreq.
    rewrite insert_many_back_grows by done.
    set (h' := release (data_ (this st)) (mem st) ++ [[]]).
    assert (Hh' : length h' = S (length (mem st)))
      by (unfold h'; by rewrite length_grown_store, length_release).
    match goal with
    | |- context [append_args args ?s1] =>
        assert (Hbl : block_len s1 = requested (2 * capacity_ (this st)));
          [|destruct (append_args_run s1 args xs) as (st' & Hrun & Hthis & Hlen & Hel)]
    end.
    { apply block_len_grown; [done|lia|done]. }
    + done.
    + simpl; lia.
    + rewrite Hbl. simpl. lia.
    + simpl. lia.
    + cbn [this mem data_ size_]. intros l [= <-]. rewrite <- Hh'.
      eapply Forall2_impl;
        [eapply (undisturbed_moved st h'); [lia| |exact Hxs]|].
      * intros l0 Hl0 Hkeep. by apply block_released_store.
      * intros a x Hax b' _. apply Hax.
    + exists st'. rewrite Hrun, Hthis, Hlen, Hbl. cbn [this size_ capacity_ set_size].
      split; [done|]. split; [|done].
      rewrite Hel. f_equal. apply elements_grown; [done|lia|done].
  - apply Z.eqb_neq in E0. rewrite insert_many_back_in_place by done.
    destruct (append_args_run st args xs) as (st' & Hrun & Hthis & Hlen & Hel);
      [done|lia|lia|lia| |].
    + intros l Hd. apply undisturbed_in_place; [done| |done].
      apply block_valid. unfold block_len in Hroom. rewrite Hd in Hroom. lia.
    + exists st'. rewrite Hrun, Hthis, Hlen. by cbn [this size_ capacity_ set_size].
Qed.


Lemma undisturbed_values (st : state T) (grows : bool) (lo : Z) (xs : list T) :
  Forall2 (undisturbed st grows lo) (values xs) xs.
Proof. induction xs as [|x xs IH]; constructor; [by split|done]. Qed.

(** What insert_many_back does on a vector meeting the data model when the
    batch fits and the arguments are not disturbed (values, references to other
    blocks, references to elements of the vector while the buffer stays or
    another owner keeps it): with room left it appends in place; at
    size() == capacity() it doubles the capacity (0 becomes 2) and appends,
    provided the batch is no longer than the room the doubling makes. *)
Lemma insert_many_back_fits (st : state T) (args : list (operand T)) (xs : list T) :
  wf st ->
  args <> [] ->
  Forall2 (undisturbed st (size (this st) =? capacity (this st)) (size (this st)))
    args xs ->
  (size (this st) <> capacity (this st) ->
   size (this st) + Z.of_nat (length args) <= capacity (this st) ->
   exists st', insert_many_back args st = Ret tt st'
     /\ capacity (this st') = capacity (this st)
     /\ size (this st') = size (this st) + Z.of_nat (length args)
     /\ elements st' = elements st ++ xs)
  /\ (size (this st) = capacity (this st) ->
      2 * capacity (this st) <= SIZE_MAX ->
      size (this st) + Z.of_nat (length args) <= requested (2 * capacity (this st)) ->
      alloc_ok (size (this st)) = true ->
      alloc_ok (requested (2 * capacity (this st))) = true ->
      exists st', insert_many_back args st = Ret tt st'
        /\ capacity (this st') = requested (2 * capacity (this st))
        /\ size (this st') = size (this st) + Z.of_nat (length args)
        /\ elements st' = elements st ++ xs).
Proof.
  unfold size, capacity. intros Hwf Hargs Hxs.
  pose proof Hwf as (Hsz & Hcap & Hcmax). split.
  - intros Hne Hroom.
    destruct (insert_many_back_run st args xs Hwf Hargs) as
      (st' & Hrun & Hel & Hsize & Hcap' & _); [done| |lia|done|].
    { rewrite (proj2 (Z.eqb_neq _ _)) by done. lia. }
    rewrite (proj2 (Z.eqb_neq _ _)) in Hcap' by done. by exists st'.
  - intros Heq Hdbl Hroom Hok1 Hok2.
    pose proof (requested_double (capacity_ (this st))) as Hreq.
    destruct (insert_many_back_run st args xs Hwf Hargs) as
      (st' & Hrun & Hel & Hsize & Hcap' & _); [done| |lia|done|].
    { by rewrite (proj2 (Z.eqb_eq _ _)). }
    rewrite (proj2 (Z.eqb_eq _ _)) in Hcap' by done. by exists st'.
Qed.

(** * Further properties of the member functions *)

(** ** push_back *)

Lemma push_back_run (st : state T) (x : operand T) (y : T) :
  wf st ->
  2 * capacity_ (this st) <= SIZE_MAX ->
  (size_ (this st) = capacity_ (this st) ->
   alloc_ok (size_ (this st)) = true
   /\ alloc_ok (requested (2 * capacity_ (this st))) = true) ->
  undisturbed st (size_ (this st) =? capacity_ (this st)) (size_ (this st)) x y ->
  exists st',
    push_back x st = Ret tt st'
    /\ elements st' = elements st ++ [y]
    /\ size_ (this st') = size_ (this st) + 1
    /\ capacity_ (this st')
       = (if size_ (this st) =? capacity_ (this st)
          then requested (2 * capacity_ (this st)) else capacity_ (this st))
    /\ wf st'.
Proof.
  intros Hwf Hdbl Halloc Hx.
  pose proof Hwf as (Hsz & Hcap & Hcmax).
  pose proof (requested_double (capacity_ (this st))) as Hreq.
  destruct (insert_many_back_run st [x] [y] Hwf) as
    (st' & Hrun & Hel & Hsize & Hcap' & Hlen).
  - done.
  - intros Heq. destruct (Halloc Heq). by repeat split.
  - cbn [length]. destruct (size_ (this st) =? capacity_ (this st)) eqn:E0; [|lia].
    apply Z.eqb_eq in E0. lia.
  - cbn [length]. lia.
  - by constructor.
  - exists st'. cbn [length] in Hsize.
    split; [done|]. split; [done|]. split; [done|]. split; [done|].
    unfold wf. rewrite Hsize, Hcap', Hlen.
    destruct (size_ (this st) =? capacity_ (this st)) eqn:E0; [|lia].
    apply Z.eqb_eq in E0. lia.
Qed.

(** Extra: on a vector meeting the data model, push_back(x) of an argument
    it does not disturb (a value, a reference to another block, or a reference
    to an element of the vector when either there is room left or another owner
    keeps the old buffer through the growth) appends the value of x, increases
    size by one and keeps the data model; capacity is kept when there is room
    and doubled (0 becomes 2) when size() == capacity(); back() then reads that
    value. *)
Theorem push_back_appends (st : state T) (x : operand T) (y : T) :
  wf st ->
  2 * capacity (this st) <= SIZE_MAX ->
  (size (this st) = capacity (this st) ->
   alloc_ok (size (this st)) = true
   /\ alloc_ok (requested (2 * capacity (this st))) = true) ->
  undisturbed st (size (this st) =? capacity (this st)) (size (this st)) x y ->
  exists st' r,
    push_back x st = Ret tt st'
    /\ elements st' = elements st ++ [y]
    /\ size (this st') = size (this st) + 1
    /\ capacity (this st')
       = (if size (this st) =? capacity (this st)
          then requested (2 * capacity (this st)) else capacity (this st))
    /\ wf st'
    /\ back st' = Ret r st'
    /\ deref (mem st') r = Some y.
Proof.
  unfold size, capacity. intros Hwf Hdbl Halloc Hx.
  destruct (push_back_run st x y Hwf Hdbl Halloc Hx)
    as (st' & Hrun & Hel & Hsize & Hcap' & Hwf').
  pose proof Hwf as (Hsz & Hcap & Hcmax).
  assert (Hst' : stored st').
  { destruct Hwf' as (? & ? & ?). unfold stored. lia. }
  exists st', {| ref_ptr := data_ (this st'); ref_slot := size_ (this st) |}.
  split; [done|]. split; [done|]. split; [done|]. split; [done|]. split; [done|].
  split.
  - unfold back. rewrite Hsize.
    replace (size_ (this st) + 1 - 1) with (size_ (this st)) by lia.
    rewrite (wrap_small (size_ (this st))) by lia.
    apply at_in_range; [done|lia].
  - unfold deref, load; simpl.
    transitivity (elements st' !! Z.to_nat (size_ (this st))).
    { unfold elements. destruct Hst' as ((? & ?) & ?).
      by rewrite lookup_take_lt by lia. }
    rewrite Hel. unfold block_len in Hcap.
    rewrite lookup_app_r; unfold elements; rewrite length_take.
    + by replace (Z.to_nat (size_ (this st))
                  - Z.to_nat (size_ (this st)) `min` length (block (mem st) (data_ (this st))))%nat
        with 0%nat by lia.
    + lia.
Qed.

(** Extra: on a vector meeting the data model, push_back(x) of an argument
    it does not disturb followed by pop_back() gives back the elements and the
    size; the capacity push_back reached is kept, so it is never below the
    capacity before. *)
Theorem push_back_then_pop_back (st : state T) (x : operand T) (y : T) :
  wf st ->
  2 * capacity (this st) <= SIZE_MAX ->
  (size (this st) = capacity (this st) ->
   alloc_ok (size (this st)) = true
   /\ alloc_ok (requested (2 * capacity (this st))) = true) ->
  undisturbed st (size (this st) =? capacity (this st)) (size (this st)) x y ->
  exists st1 st2,
    push_back x st = Ret tt st1
    /\ pop_back st1 = Ret tt st2
    /\ elements st2 = elements st
    /\ size (this st2) = size (this st)
    /\ capacity (this st2) = capacity (this st1)
    /\ capacity (this st) <= capacity (this st2).
Proof.
  unfold size, capacity. intros Hwf Hdbl Halloc Hx.
  destruct (push_back_run st x y Hwf Hdbl Halloc Hx)
    as (st1 & Hrun & Hel & Hsize & Hcap' & Hwf').
  pose proof Hwf as (Hsz & Hcap & Hcmax). unfold block_len in Hcap.
  exists st1, {| this := set_size (size_ (this st)) (this st1); mem := mem st1 |}.
  split; [done|]. split.
  { unfold pop_back, modify_this. rewrite (proj2 (Z.ltb_lt _ _)) by lia.
    rewrite Hsize, wrap_small by lia. do 3 f_equal. lia. }
  split.
  { transitivity (take (Z.to_nat (size_ (this st))) (elements st1)).
    - unfold elements; simpl. rewrite take_take. f_equal. lia.
    - rewrite Hel. rewrite take_app_length'; [done|].
      unfold elements. rewrite length_take. lia. }
  split; [done|]. split; [done|]. simpl. rewrite Hcap'.
  destruct (size_ (this st) =? capacity_ (this st)) eqn:E0; [|lia].
  pose proof (requested_double (capacity_ (this st))). lia.
Qed.

(** Extra: push_back(v[j]) on a full vector whose buffer no one else owns.
    The argument is a reference into the buffer; reserve releases the buffer
    when it installs the new block, and the assignment that follows reads the
    argument through the released block: the call is undefined. *)
Theorem push_back_own_element_released (st : state T) (l : nat) (j : Z) :
  wf st ->
  data_ (this st) = Some l ->
  (l < length (mem st))%nat ->
  pinned l = false ->
  size (this st) = capacity (this st) ->
  2 * capacity (this st) <= SIZE_MAX ->
  alloc_ok (size (this st)) = true ->
  alloc_ok (requested (2 * capacity (this st))) = true ->
  push_back (Ref {| ref_ptr := Some l; ref_slot := j |}) st = Undefined.
Proof.
  unfold size, capacity. intros Hwf Hd Hl Hpin Heq Hdbl Hok1 Hok2.
  unfold push_back. rewrite insert_many_back_grows by done.
  cbn [append_args]. unfold bind at 1. unfold bind at 1.
  unfold modify_this. cbn [this mem]. unfold bind at 1.
  unfold read_arg, deref, load. cbn [this mem ref_ptr ref_slot].
  rewrite !block_prefix by (rewrite ?length_grown_store, length_release; lia).
  rewrite Hd. by rewrite block_release_freed.
Qed.

(** ** insert_many_back beyond the room there is *)

(** Extra: insert_many_back never checks that the batch fits.  When the
    slots available after its one growth test (the doubled capacity at
    size() == capacity(), the allocated block otherwise) are fewer than
    size() + n, the fold writes past the end of the block: the call is
    undefined. *)
Theorem insert_many_back_overrun (st : state T) (args : list (operand T)) :
  wf st ->
  size (this st) + Z.of_nat (length args) <= SIZE_MAX ->
  2 * capacity (this st) <= SIZE_MAX ->
  (size (this st) = capacity (this st) ->
   alloc_ok (size (this st)) = true
   /\ alloc_ok (requested (2 * capacity (this st))) = true) ->
  (if size (this st) =? capacity (this st)
   then requested (2 * capacity (this st)) else block_len st)
  < size (this st) + Z.of_nat (length args) ->
  insert_many_back args st = Undefined.
Proof.
  unfold size, capacity. intros Hwf Hmax Hdbl Halloc Hover.
  pose proof Hwf as (Hsz & Hcap & Hcmax).
  assert (Hst : stored st) by (unfold stored; lia).
  destruct (size_ (this st) =? capacity_ (this st)) eqn:E0.
  - apply Z.eqb_eq in E0. destruct (Halloc E0) as [Hok1 Hok2].
    pose proof (requested_double (capacity_ (this st))) as Hreq.
    rewrite insert_many_back_grows by done.
    apply append_args_overrun;
      rewrite ?block_len_grown
        by (done || lia || by rewrite length_grown_store, length_release);
      simpl; lia.
  - apply Z.eqb_neq in E0. rewrite insert_many_back_in_place by done.
    apply append_args_overrun; lia.
Qed.

(** Extra: with room left (size() < capacity()) insert_many_back appends
    without growing, whatever the batch: a batch longer than the room that
    still fits the allocated block returns with size() above capacity(). *)
Theorem insert_many_back_exceeds_capacity (st : state T) (args : list (operand T))
    (xs : list T) :
  wf st ->
  size (this st) < capacity (this st) ->
  capacity (this st) < size (this st) + Z.of_nat (length args) ->
  size (this st) + Z.of_nat (length args) <= block_len st ->
  size (this st) + Z.of_nat (length args) <= SIZE_MAX ->
  Forall2 (undisturbed st false (size (this st))) args xs ->
  exists st', insert_many_back args st = Ret tt st'
    /\ elements st' = elements st ++ xs
    /\ capacity (this st') = capacity (this st)
    /\ capacity (this st') < size (this st').
Proof.
  unfold size, capacity. intros Hwf Hroom Hover Hblk Hmax Hxs.
  assert (Hargs : args <> []) by (intros ->; simpl in Hover; lia).
  assert (Hne : (size_ (this st) =? capacity_ (this st)) = false)
    by (apply Z.eqb_neq; lia).
  destruct (insert_many_back_run st args xs Hwf Hargs) as
    (st' & Hrun & Hel & Hsize & Hcap' & _).
  - intros Heq. lia.
  - by rewrite Hne.
  - done.
  - by rewrite Hne.
  - rewrite Hne in Hcap'. exists st'. rewrite Hsize, Hcap'.
    split; [done|]. split; [done|]. split; [done|]. lia.
Qed.

(** ** erase, with the state it leaves *)

Lemma erase_returns (st : state T) (pos : VectorIterator) :
  stored st ->
  0 <= index_ pos < size_ (this st) ->
  exists st', erase pos st = Ret tt st'
    /\ this st' = set_size (size_ (this st) - 1) (this st)
    /\ block_len st' = block_len st
    /\ elements st'
       = take (Z.to_nat (index_ pos)) (elements st)
         ++ drop (S (Z.to_nat (index_ pos))) (elements st).
Proof.
  intros Hst Hp. pose proof Hst as ((Hs0 & Hs) & Hmax). unfold block_len in Hs.
  destruct (state_with_block st) as (l & Hd & Hl & Hwb); [lia|].
  pose proof (erase_block l (this st) (mem st) _ pos Hd Hl Hp Hs Hmax) as Herase.
  rewrite <- Hwb in Herase.
  eexists. split; [exact Herase|]. split; [done|]. split.
  - unfold block_len, with_block; simpl. rewrite Hd in Hs |- *.
    rewrite block_insert by done.
    rewrite !length_app, !length_take, !length_drop. lia.
  - rewrite elements_with_block by done. simpl. unfold elements.
    rewrite (assoc_L (++)), take_app_length'.
    + rewrite take_take, skipn_firstn_comm. do 2 f_equal; lia.
    + rewrite length_app, !length_take, length_drop. lia.
Qed.

(** ** erase without an element to erase *)

(** The loop of erase runs off the block when it is asked for more iterations
    than the block has slots left. *)
Lemma erase_loop_overrun (it : VectorIterator) (k : nat) :
  forall (i : Z) (st : state T),
    0 <= i ->
    i + Z.of_nat k <= SIZE_MAX ->
    (0 < k)%nat ->
    (length (block (mem st) (ptr_ it)) <= Z.to_nat i + k)%nat ->
    erase_loop it k i st = Undefined.
Proof.
  induction k as [|k IH]; intros i st Hi Hmax Hk Hlen; [lia|].
  cbn [erase_loop]. unfold bind at 1.
  rewrite (wrap_small (i + 1)) by lia.
  unfold it_get. destruct (load (mem st) (ptr_ it) (i + 1)) as [x|] eqn:Hx; [|done].
  unfold load in Hx. apply lookup_lt_Some in Hx.
  destruct (ptr_ it) as [l|] eqn:Hp; [|simpl in Hx; lia].
  unfold bind at 1. unfold it_set, on_mem.
  rewrite (store_Some _ _ _ _ l Hp) by (rewrite Hp; lia).
  assert (Hl : (l < length (mem st))%nat) by (apply block_valid; lia).
  apply IH; [lia|lia|lia|]. cbn [mem]. rewrite ?Hp.
  rewrite block_insert, length_insert by done. lia.
Qed.

(** Extra: erase has no guard for the empty vector.  With size() = 0 the loop
    bound size() - 1 wraps to SIZE_MAX, and the loop reads past the end of the
    block whatever the block is: the call is undefined (where pop_back on an
    empty vector does nothing). *)
Theorem erase_empty_undefined (st : state T) (pos : VectorIterator) :
  size (this st) = 0 ->
  0 <= index_ pos < SIZE_MAX ->
  block_len st <= SIZE_MAX ->
  erase pos st = Undefined /\ pop_back st = Ret tt st.
Proof.
  unfold size, block_len. intros Hs Hp Hlen. split.
  - unfold erase, distance, size, bind; simpl. rewrite Hs, Z.sub_0_r.
    rewrite (wrap_small (index_ pos)) by lia.
    change (wrap (0 - 1)) with SIZE_MAX.
    rewrite erase_loop_overrun; [done|lia|lia|lia|simpl; lia].
  - unfold pop_back. by rewrite Hs.
Qed.

(** ** Constructors *)

(** Extra: Vector(items) builds a vector with size() = capacity() =
    items.size() holding the items in order, in a block of its own, and meets
    the data model; if the allocation is refused it throws runtime_error and
    the store is as before. *)
Theorem Vector_items_spec (items : list T) (h : heap) :
  Z.of_nat (length items) <= SIZE_MAX ->
  (alloc_ok (Z.of_nat (length items)) = true ->
   exists v, Vector_items items h = Ret v (h ++ [items])
     /\ size v = Z.of_nat (length items)
     /\ capacity v = Z.of_nat (length items)
     /\ elements {| this := v; mem := h ++ [items] |} = items
     /\ wf {| this := v; mem := h ++ [items] |})
  /\ (alloc_ok (Z.of_nat (length items)) = false ->
      Vector_items items h = Throw runtime_error h).
Proof.
  intros Hmax. unfold Vector_items. rewrite wrap_small by lia. split.
  - intros Hok. unfold construct, bind. rewrite allocate_vector_ok by done.
    cbn [this mem data_ set_data release]. unfold on_mem. cbn [this mem data_ set_data release].
    rewrite block_new, Nat2Z.id, length_replicate.
    rewrite decide_True by lia. cbn [this mem].
    rewrite insert_app_r_alt, Nat.sub_diag by lia. simpl.
    rewrite drop_replicate, Nat.sub_diag, app_nil_r.
    eexists. split; [done|]. unfold size, capacity, elements, wf, block_len; simpl.
    rewrite list_lookup_middle by done. simpl. rewrite Nat2Z.id, firstn_all.
    repeat split; lia.
  - intros Hok. unfold construct, bind. by rewrite allocate_vector_fail.
Qed.

Lemma fill_n_fresh (h : heap) (n : Z) (value : T) (blk : list T) :
  0 <= n ->
  (Z.to_nat n <= length blk)%nat ->
  fill_n (Some (length h)) n value (h ++ [blk])
  = Some (h ++ [replicate (Z.to_nat n) value ++ drop (Z.to_nat n) blk]).
Proof.
  intros Hn Hblk. unfold fill_n.
  destruct (n =? 0) eqn:E.
  - apply Z.eqb_eq in E. subst n. done.
  - rewrite block_new. rewrite decide_True by done. f_equal.
    rewrite insert_app_r_alt by lia. by rewrite Nat.sub_diag.
Qed.

(** Extra: Vector(count, value) builds a vector of count copies of value
    with size() = capacity() = count; if the allocation is refused it throws
    runtime_error and the store is as before. *)
Theorem Vector_fill_spec (count : Z) (value : T) (h : heap) :
  0 <= count <= SIZE_MAX ->
  (alloc_ok count = true ->
   exists v, Vector_fill count value h
             = Ret v (h ++ [replicate (Z.to_nat count) value])
     /\ size v = count
     /\ capacity v = count
     /\ elements {| this := v; mem := h ++ [replicate (Z.to_nat count) value] |}
        = replicate (Z.to_nat count) value
     /\ wf {| this := v; mem := h ++ [replicate (Z.to_nat count) value] |})
  /\ (alloc_ok count = false -> Vector_fill count value h = Throw runtime_error h).
Proof.
  intros Hc. unfold Vector_fill. split.
  - intros Hok. unfold construct, bind. rewrite allocate_vector_ok by done.
    cbn [this mem data_ set_data release]. unfold on_mem. cbn [this mem data_ set_data release].
    rewrite fill_n_fresh by (rewrite ?length_replicate; lia).
    rewrite drop_replicate, Nat.sub_diag, app_nil_r. cbn [this mem].
    eexists. split; [done|]. unfold size, capacity, elements, wf, block_len; simpl.
    rewrite list_lookup_middle by done. simpl.
    rewrite take_ge by (rewrite length_replicate; lia). rewrite length_replicate.
    repeat split; lia.
  - intros Hok. unfold construct, bind. by rewrite allocate_vector_fail.
Qed.

(** Extra: the copy constructor gives the copy a block of its own with
    capacity() = size() of the source and the same elements; writing an
    element of the copy leaves the elements of the source as they were. *)
Theorem Vector_copy_independent (v : Vector) (h : heap) :
  stored {| this := v; mem := h |} ->
  alloc_ok (size v) = true ->
  exists v' h',
    Vector_copy v h = Ret v' h'
    /\ size v' = size v
    /\ capacity v' = size v
    /\ elements {| this := v'; mem := h' |} = elements {| this := v; mem := h |}
    /\ elements {| this := v; mem := h' |} = elements {| this := v; mem := h |}
    /\ forall (pos : Z) (x : T),
         0 <= pos < size v ->
         exists st'',
           set_element pos x {| this := v'; mem := h' |} = Ret tt st''
           /\ elements st''
              = <[Z.to_nat pos := x]> (elements {| this := v; mem := h |})
           /\ elements {| this := v; mem := mem st'' |}
              = elements {| this := v; mem := h |}.
Proof.
  unfold size, capacity. intros Hst Hok.
  pose proof Hst as ((Hs0 & Hs) & Hmax). unfold block_len in Hs. simpl in *.
  rewrite Vector_copy_ok by (done || lia).
  eexists _, _. split; [done|]. simpl. split; [done|]. split; [done|].
  assert (Hcopy : elements
            {| this := {| data_ := Some (length h); size_ := size_ v; capacity_ := size_ v |};
               mem := h ++ [take (Z.to_nat (size_ v)) (block h (data_ v))] |}
          = elements {| this := v; mem := h |}).
  { unfold elements; simpl. rewrite list_lookup_middle by done. simpl.
    by rewrite take_take, Nat.min_id. }
  assert (Hsrc : forall b', (0 < size_ v -> True) ->
            elements {| this := v; mem := h ++ [b'] |} = elements {| this := v; mem := h |}).
  { intros b' _. unfold elements; simpl.
    destruct (decide (size_ v = 0)) as [->|Hne]; [done|].
    by rewrite block_app by lia. }
  split; [done|]. split; [by apply Hsrc|].
  intros pos x Hpos.
  assert (Hst2 : stored
            {| this := {| data_ := Some (length h); size_ := size_ v; capacity_ := size_ v |};
               mem := h ++ [take (Z.to_nat (size_ v)) (block h (data_ v))] |}).
  { unfold stored, block_len; simpl. rewrite list_lookup_middle by done. simpl.
    rewrite length_take. lia. }
  unfold set_element, bind. rewrite at_in_range by done.
  cbn [ref_ptr ref_slot this mem data_]. unfold on_mem. cbn [this mem data_].
  rewrite (store_Some _ _ _ _ (length h) eq_refl)
    by (rewrite block_new, length_take; lia).
  eexists. split; [done|]. cbn [this mem].
  rewrite block_new, insert_app_r_alt, Nat.sub_diag by lia. simpl. split.
  - unfold elements at 1; simpl. rewrite list_lookup_middle by done. simpl.
    rewrite take_insert_lt by lia. by rewrite take_take, Nat.min_id.
  - by apply Hsrc.
Qed.

(** ** Element access after a write *)

(** Extra: after set_element(pos, x) with pos < size(), at(pos) reads x and
    at(q) reads the element that was there, for every other q < size(). *)
Theorem set_element_then_at (st : state T) (pos : Z) (x : T) :
  stored st ->
  0 <= pos < size (this st) ->
  exists st', set_element pos x st = Ret tt st'
    /\ (exists r, at_ pos st' = Ret r st' /\ deref (mem st') r = Some x)
    /\ (forall q, 0 <= q < size (this st) -> q <> pos ->
        exists r, at_ q st' = Ret r st'
                  /\ deref (mem st') r = elements st !! Z.to_nat q).
Proof.
  unfold size. intros Hst Hpos.
  pose proof Hst as ((Hs0 & Hs) & Hmax). unfold block_len in Hs.
  destruct (stored_data st pos Hst Hpos) as (l & Hd & Hlen).
  assert (Hl : (l < length (mem st))%nat) by (apply block_valid; rewrite <- Hd; lia).
  unfold set_element, bind. rewrite at_in_range by done. simpl.
  unfold on_mem. rewrite (store_Some _ _ _ _ l Hd Hlen). simpl.
  set (st' := {| this := this st;
                 mem := <[l := <[Z.to_nat pos := x]> (block (mem st) (data_ (this st)))]>
                          (mem st) |}).
  assert (Hblk : block (mem st') (data_ (this st'))
                 = <[Z.to_nat pos := x]> (block (mem st) (data_ (this st)))).
  { unfold st'; cbn [this mem data_].
    generalize (<[Z.to_nat pos := x]> (block (mem st) (data_ (this st)))).
    intros b'. rewrite Hd. by apply block_insert. }
  assert (Hst' : stored st').
  { unfold stored, block_len. rewrite Hblk, length_insert. unfold st'; simpl. lia. }
  exists st'. split; [done|]. split.
  - eexists. split; [apply at_in_range; done|].
    unfold deref, load; cbn [ref_ptr ref_slot].
    rewrite Hblk. by apply list_lookup_insert_eq.
  - intros q Hq Hne. eexists. split; [apply at_in_range; done|].
    unfold deref, load; cbn [ref_ptr ref_slot].
    rewrite Hblk. rewrite list_lookup_insert_ne by lia.
    unfold elements. by rewrite lookup_take_lt by lia.
Qed.

(** ** The data model under the other modifiers *)

Lemma block_behind_released (p : option nat) (h : heap) (b : list T) :
  block (release p h ++ [b]) (Some (length h)) = b.
Proof. rewrite <- (length_release p h). apply block_new. Qed.

Lemma block_behind_empty (h : heap) (p : option nat) :
  block (h ++ [[]]) p = block h p.
Proof.
  destruct p as [l|]; [|done]. unfold block.
  destruct (decide (l < length h)%nat) as [Hl|Hl].
  - by rewrite lookup_app_l.
  - rewrite lookup_app_r by lia. rewrite (lookup_ge_None_2 h) by lia.
    by destruct (l - length h)%nat as [|[|k]].
Qed.

Lemma reserve_returns (st : state T) (c : Z) (st' : state T) :
  wf st -> 0 <= c <= SIZE_MAX ->
  reserve c st = Ret tt st' ->
  wf st' /\ elements st' = elements st
  /\ capacity_ (this st') = Z.max (capacity_ (this st)) (requested c).
Proof.
  intros Hwf Hc Hrun. pose proof Hwf as (Hsz & Hcap & Hcmax).
  assert (Hst : stored st) by (unfold stored; lia).
  assert (Hr : 0 < requested c <= SIZE_MAX).
  { unfold requested, SIZE_MAX in *. destruct (c =? 0) eqn:E; [lia|].
    apply Z.eqb_neq in E. lia. }
  destruct (decide (requested c <= capacity_ (this st))) as [Hle|Hgt].
  - rewrite reserve_noop in Hrun by done. injection Hrun as <-.
    split; [done|]. split; [done|]. lia.
  - destruct (alloc_ok (size_ (this st))) eqn:Hok1; cycle 1.
    { rewrite reserve_copy_failure in Hrun by (done || unfold capacity; lia). done. }
    destruct (alloc_ok (requested c)) eqn:Hok2; cycle 1.
    { rewrite reserve_alloc_failure in Hrun by (done || unfold capacity; lia). done. }
    rewrite reserve_grow in Hrun by (done || unfold capacity; lia).
    injection Hrun as <-. rewrite cons_middle, (assoc_L (++)).
    split; [|split].
    + unfold wf. rewrite block_len_grown; [simpl; lia|done|lia|].
      by rewrite length_grown_store, length_release.
    + apply elements_grown; [done|lia|].
      by rewrite length_grown_store, length_release.
    + simpl. lia.
Qed.

Lemma shrink_to_fit_returns (st : state T) (st' : state T) :
  wf st ->
  shrink_to_fit st = Ret tt st' ->
  wf st' /\ elements st' = elements st /\ capacity_ (this st') = size_ (this st).
Proof.
  intros Hwf Hrun. pose proof Hwf as (Hsz & Hcap & Hcmax).
  assert (Hst : stored st) by (unfold stored; lia). unfold block_len in Hcap.
  destruct (decide (capacity_ (this st) <= size_ (this st))) as [Hle|Hgt].
  - rewrite shrink_to_fit_noop in Hrun by done. injection Hrun as <-.
    split; [done|]. split; [done|]. lia.
  - destruct (alloc_ok (size_ (this st))) eqn:Hok; cycle 1.
    { rewrite shrink_to_fit_alloc_failure in Hrun by (done || lia). done. }
    rewrite shrink_to_fit_shrinks in Hrun by (done || lia). injection Hrun as <-.
    split; [|split; [|done]].
    + unfold wf, block_len. cbn [this mem data_ size_ capacity_].
      rewrite block_behind_released, length_take. lia.
    + unfold elements. cbn [this mem data_ size_].
      by rewrite block_behind_released, take_take, Nat.min_id.
Qed.

(** Extra: reserve, shrink_to_fit, pop_back, clear, erase at a position
    below size() and set_element keep the data model
    [size_ <= capacity_ <= allocated slots] whenever they return; reserve and
    shrink_to_fit also keep the elements. *)
Theorem data_model_kept (st : state T) :
  wf st ->
  (forall c st', 0 <= c <= SIZE_MAX -> reserve c st = Ret tt st' ->
     wf st' /\ elements st' = elements st)
  /\ (forall st', shrink_to_fit st = Ret tt st' -> wf st' /\ elements st' = elements st)
  /\ (forall st', pop_back st = Ret tt st' -> wf st')
  /\ (forall st', clear st = Ret tt st' -> wf st' /\ elements st' = [])
  /\ (forall pos st', 0 <= index_ pos < size (this st) ->
        erase pos st = Ret tt st' -> wf st')
  /\ (forall pos x st', set_element pos x st = Ret tt st' -> wf st').
Proof.
  intros Hwf. pose proof Hwf as (Hsz & Hcap & Hcmax).
  assert (Hst : stored st) by (unfold stored; lia).
  split; [|split; [|split; [|split; [|split]]]].
  - intros c st' Hc Hrun.
    destruct (reserve_returns st c st' Hwf Hc Hrun) as (? & ? & _). by split.
  - intros st' Hrun.
    destruct (shrink_to_fit_returns st st' Hwf Hrun) as (? & ? & _). by split.
  - intros st' Hrun. unfold pop_back, modify_this in Hrun.
    destruct (0 <? size_ (this st)) eqn:E.
    + apply Z.ltb_lt in E. rewrite wrap_small in Hrun by lia.
      injection Hrun as <-. unfold wf, block_len in *; simpl. lia.
    + by injection Hrun as <-.
  - intros st' Hrun. unfold clear, modify_this in Hrun. injection Hrun as <-.
    split; [|done]. unfold wf, block_len in *; simpl. lia.
  - intros pos st' Hp Hrun. unfold size in Hp.
    destruct (erase_returns st pos Hst Hp) as (st2 & Herase & Hthis & Hlen & _).
    rewrite Herase in Hrun. injection Hrun as <-.
    unfold wf. rewrite Hlen, Hthis. simpl. lia.
  - intros pos x st' Hrun. unfold set_element, bind in Hrun.
    destruct (decide (0 <= pos < size_ (this st))) as [Hin|Hout].
    + destruct (stored_data st pos Hst Hin) as (l & Hd & Hlen).
      assert (Hl : (l < length (mem st))%nat)
        by (apply block_valid; rewrite <- Hd; lia).
      rewrite at_in_range in Hrun by done.
      cbn [ref_ptr ref_slot] in Hrun. unfold on_mem in Hrun.
      rewrite (store_Some _ _ _ _ l Hd Hlen) in Hrun. injection Hrun as <-.
      unfold wf, block_len in *. cbn [this mem]. rewrite Hd in Hcap |- *.
      rewrite block_insert, length_insert by done. lia.
    + unfold at_ in Hrun. destruct (size_ (this st) <=? pos) eqn:E; [done|].
      apply Z.leb_gt in E. unfold bind, it_add, begin in Hrun. simpl in Hrun.
      rewrite (proj2 (Z.leb_gt _ _)) in Hrun by lia. done.
Qed.

(** Extra: shrink_to_fit allocates with a plain new[]: a refused allocation
    surfaces as bad_alloc, not as the runtime_error of allocate_vector, after
    capacity_ was already lowered to size(); the elements stay in place. *)
Theorem shrink_to_fit_refused (st : state T) :
  size (this st) < capacity (this st) ->
  alloc_ok (size (this st)) = false ->
  exists st', shrink_to_fit st = Throw bad_alloc st'
    /\ capacity (this st') = size (this st)
    /\ size (this st') = size (this st)
    /\ elements st' = elements st.
Proof.
  unfold size, capacity. intros Hlt Hok.
  rewrite shrink_to_fit_alloc_failure by done.
  eexists. split; [done|]. by repeat split.
Qed.

(** Extra: reserve allocates twice, first the copy [tmp] and then the new
    block.  If the first request is refused the vector is untouched; if the
    second is refused, capacity_ already holds the request, so capacity() then
    exceeds the slots of the block the vector still points to.  Size and
    elements are kept either way. *)
Theorem reserve_refused (st : state T) (c : Z) :
  wf st ->
  capacity (this st) < requested c ->
  (alloc_ok (size (this st)) = false -> reserve c st = Throw runtime_error st)
  /\ (alloc_ok (size (this st)) = true -> alloc_ok (requested c) = false ->
      exists st', reserve c st = Throw runtime_error st'
        /\ size (this st') = size (this st)
        /\ elements st' = elements st
        /\ capacity (this st') = requested c
        /\ block_len st' = block_len st
        /\ (block_len st < requested c -> ~ wf st')).
Proof.
  unfold size, capacity. intros (Hsz & Hcap & Hcmax) Hlt.
  assert (Hst : stored st) by (unfold stored; lia). unfold block_len in Hcap.
  split.
  - intros Hok. by apply reserve_copy_failure.
  - intros Hok1 Hok2. rewrite reserve_alloc_failure by done.
    eexists. split; [done|].
    pose proof (block_behind_empty (mem st) (data_ (this st))) as Hblk.
    unfold block_len, elements, wf, block_len; simpl. rewrite Hblk.
    repeat split; try done. intros Hshort (_ & Hbad & _). lia.
Qed.

End VectorProofs.

(** * Calls that hold a block themselves *)

Section HeldBlocks.

Context {T : Type} {env : Environment T}.

#[local] Abbreviation heap := (list (list T)) (only parsing).

(** ** The owners during such a call *)

Lemma release_hold_same (p : option nat) (h : heap) :
  release (env := hold env p) p h = h.
Proof.
  destruct p as [l|]; [|done]. unfold release. cbn [pinned hold].
  rewrite bool_decide_eq_true_2 by done. by rewrite orb_true_r.
Qed.

Lemma release_hold_ne (p q : option nat) (h : heap) :
  q <> p -> release (env := hold env p) q h = release q h.
Proof.
  intros Hne. destruct q as [l|]; [|done]. unfold release. cbn [pinned hold].
  rewrite bool_decide_eq_false_2 by congruence. by rewrite orb_false_r.
Qed.

Lemma length_release_hold (p q : option nat) (h : heap) :
  length (release (env := hold env p) q h) = length h.
Proof. apply (length_release (env := hold env p)). Qed.

(** A block is as it was after a share of [p] is given up, unless it is the
    block at [p] and no owner outside the call holds it. *)
Lemma block_release_kept (p : option nat) (h : heap) (l0 : nat) :
  pinned l0 = true \/ p <> Some l0 ->
  block (release p h) (Some l0) = block h (Some l0).
Proof.
  intros [Hpin|Hne].
  - destruct (decide (p = Some l0)) as [->|Hne].
    + by apply block_release_pinned.
    + apply block_release_ne. congruence.
  - apply block_release_ne. congruence.
Qed.

Lemma block_release_hold_kept (p q : option nat) (h : heap) (l0 : nat) :
  pinned l0 = true \/ q <> Some l0 \/ p = Some l0 ->
  block (release (env := hold env p) q h) (Some l0) = block h (Some l0).
Proof.
  intros Hkept. destruct (decide (q = p)) as [->|Hqp].
  - by rewrite release_hold_same.
  - rewrite release_hold_ne by done. apply block_release_kept.
    destruct Hkept as [?|[?|?]]; [by left|by right|right; congruence].
Qed.

Lemma block_release_hold (p q : option nat) (h : heap) :
  block (release (env := hold env p) q h) p = block h p.
Proof.
  destruct p as [l0|]; [|done]. apply block_release_hold_kept. by right; right.
Qed.

(** ** Move assignment *)

(** Extra: a = std::move(v) copies the elements of v into a block of exactly
    v.size() slots but records v.capacity() as the capacity of a.  When v had
    unused capacity, a reports more capacity than its block has, and the next
    push_back writes past the end of the block.  A refused allocation ends in
    std::terminate, the function being noexcept. *)
Theorem move_assign_result (v : Vector) (st : state T) :
  stored {| this := v; mem := mem st |} ->
  capacity v <= SIZE_MAX ->
  (alloc_ok (size v) = true ->
   exists st', move_assign v st = Ret v st'
     /\ elements st' = elements {| this := v; mem := mem st |}
     /\ size (this st') = size v
     /\ capacity (this st') = capacity v
     /\ block_len st' = size v
     /\ (size v < capacity v -> forall x, push_back x st' = Undefined))
  /\ (alloc_ok (size v) = false -> move_assign v st = Terminated).
Proof.
  unfold size, capacity. intros Hst Hcmax.
  pose proof Hst as ((Hs0 & Hs) & Hmax). unfold block_len in Hs. simpl in *.
  split.
  - intros Hok. unfold move_assign, noexcept.
    unfold bind at 1. unfold modify_this at 1. unfold bind at 1.
    unfold modify_this at 1. unfold bind at 1. cbn [this mem size_ set_size set_capacity].
    rewrite (allocate_vector_ok (env := hold env (data_ v))) by done.
    unfold bind, on_mem, ret, size, capacity.
    cbn [this mem data_ size_ capacity_ set_data set_size set_capacity].
    set (R := release (env := hold env (data_ v)) (data_ (this st)) (mem st)).
    assert (HR : length (mem st) = length R)
      by (symmetry; apply length_release_hold).
    assert (HRv : block R (data_ v) = block (mem st) (data_ v))
      by apply block_release_hold.
    rewrite HR, std_copy_fresh by (rewrite ?HRv, ?length_replicate; lia).
    rewrite drop_replicate, Nat.sub_diag, app_nil_r, HRv.
    eexists. split; [done|].
    assert (Hblk : forall v',
              block (mem {| this := v';
                            mem := R ++ [take (Z.to_nat (size_ v))
                                           (block (mem st) (data_ v))] |})
                (Some (length R))
              = take (Z.to_nat (size_ v)) (block (mem st) (data_ v)))
      by (intros v'; apply block_new).
    split.
    { unfold elements. cbn [this data_ size_]. by rewrite Hblk, take_take, Nat.min_id. }
    split; [done|]. split; [done|].
    assert (Hbl : forall c,
              block_len
                {| this := {| data_ := Some (length R); size_ := size_ v; capacity_ := c |};
                   mem := R ++ [take (Z.to_nat (size_ v)) (block (mem st) (data_ v))] |}
              = size_ v).
    { intros c. unfold block_len. cbn [this data_]. rewrite Hblk, length_take. lia. }
    split; [apply Hbl|].
    intros Hspare x. unfold push_back.
    unfold set_data, set_capacity, set_size. cbn [this size_ capacity_ data_].
    rewrite insert_many_back_in_place by (cbn [this size_ capacity_]; lia).
    apply append_args_overrun; rewrite ?Hbl; cbn [this size_ length]; lia.
  - intros Hok. unfold move_assign, noexcept.
    unfold bind at 1. unfold modify_this at 1. unfold bind at 1.
    unfold modify_this at 1. unfold bind at 1. cbn [this mem size_ set_size set_capacity].
    by rewrite (allocate_vector_fail (env := hold env (data_ v))).
Qed.

(** ** insert_many *)

(** The store insert_many leaves behind the new block when it grows: the
    vector gave up its buffer while the parameter [pos] held its own, then
    [pos] was assigned; the copy [tmp] of reserve is gone. *)
Lemma regrown_blocks (st : state T) (pos : VectorIterator) :
  let h' := release (ptr_ pos)
              (release (env := hold env (ptr_ pos)) (data_ (this st)) (mem st) ++ [[]]) in
  length h' = S (length (mem st))
  /\ (forall l0, (l0 < length (mem st))%nat ->
        pinned l0 = true \/ (data_ (this st) <> Some l0 /\ ptr_ pos <> Some l0) ->
        block h' (Some l0) = block (mem st) (Some l0))
  /\ (forall l0, (l0 < length (mem st))%nat ->
        pinned l0 = false ->
        data_ (this st) = Some l0 \/ ptr_ pos = Some l0 ->
        block h' (Some l0) = []).
Proof.
  intros h'. unfold h'. split; [|split].
  - by rewrite length_release, length_grown_store, length_release_hold.
  - intros l0 Hl0 Hkept.
    rewrite block_release_kept by (destruct Hkept as [?|[_ ?]]; [by left|by right]).
    rewrite block_prefix by (by rewrite length_release_hold).
    apply block_release_hold_kept.
    destruct Hkept as [?|[? _]]; [by left|by right; left].
  - intros l0 Hl0 Hpin Hown.
    destruct (decide (ptr_ pos = Some l0)) as [Hp|Hp].
    + rewrite Hp. by apply block_release_freed.
    + destruct Hown as [Hd|?]; [|done].
      rewrite block_release_kept by (by right).
      rewrite block_prefix by (by rewrite length_release_hold).
      rewrite release_hold_ne by congruence.
      rewrite Hd. by apply block_release_freed.
Qed.

Lemma insert_many_start (st : state T) (pos : VectorIterator) (args : list (operand T)) :
  0 <= index_ pos <= size_ (this st) ->
  0 <= size_ (this st) ->
  size_ (this st) + Z.of_nat (length args) <= SIZE_MAX ->
  insert_many pos args st
  = (do pos0 <- (fun st1 : state T =>
                   if capacity_ (this st1) <? size_ (this st1) + Z.of_nat (length args)
                   then (do_ reserve (env := hold env (ptr_ pos))
                               (size_ (this st1) + Z.of_nat (length args));
                         do pos' <- (fun st2 => it_add (begin (this st2)) (index_ pos) st2);
                         do_ drop_iterator (ptr_ pos);
                         ret pos') st1
                   else Ret pos st1);
     insert_many_place (index_ pos) (Z.of_nat (length args)) args pos0) st.
Proof.
  intros Hp Hs0 Hmax.
  unfold insert_many, distance, size, capacity; simpl.
  rewrite Z.sub_0_r, (wrap_small (index_ pos)), (wrap_small (Z.of_nat _)) by lia.
  unfold bind at 1 5.
  by rewrite !(wrap_small (size_ (this st) + _)) by lia.
Qed.

Lemma insert_many_in_place (st : state T) (pos : VectorIterator) (args : list (operand T)) :
  0 <= index_ pos <= size_ (this st) ->
  size_ (this st) + Z.of_nat (length args) <= SIZE_MAX ->
  size_ (this st) + Z.of_nat (length args) <= capacity_ (this st) ->
  insert_many pos args st
  = insert_many_place (index_ pos) (Z.of_nat (length args)) args pos st.
Proof.
  intros Hp Hmax Hroom. rewrite insert_many_start by lia.
  unfold bind at 1. by rewrite (proj2 (Z.ltb_ge _ _)).
Qed.

Lemma insert_many_grows (st : state T) (pos : VectorIterator) (args : list (operand T)) :
  wf st ->
  args <> [] ->
  0 <= index_ pos <= size_ (this st) ->
  size_ (this st) + Z.of_nat (length args) <= SIZE_MAX ->
  capacity_ (this st) < size_ (this st) + Z.of_nat (length args) ->
  alloc_ok (size_ (this st)) = true ->
  alloc_ok (size_ (this st) + Z.of_nat (length args)) = true ->
  insert_many pos args st
  = insert_many_place (index_ pos) (Z.of_nat (length args)) args
      {| ptr_ := Some (S (length (mem st)));
         bound_ := size_ (this st);
         index_ := index_ pos |}
      {| this := {| data_ := Some (S (length (mem st)));
                    size_ := size_ (this st);
                    capacity_ := size_ (this st) + Z.of_nat (length args) |};
         mem := release (ptr_ pos)
                  (release (env := hold env (ptr_ pos)) (data_ (this st)) (mem st) ++ [[]])
                ++ [grown (size_ (this st)) (size_ (this st) + Z.of_nat (length args))
                      (block (mem st) (data_ (this st)))] |}.
Proof.
  intros (Hsz & Hcap & Hcmax) Hargs Hp Hmax Hgrow Hok1 Hok2.
  assert (Hn : 0 < Z.of_nat (length args)) by (destruct args; [done|simpl; lia]).
  assert (Hst : stored st) by (unfold stored; lia).
  assert (Hreq : requested (size_ (this st) + Z.of_nat (length args))
                 = size_ (this st) + Z.of_nat (length args))
    by (apply requested_nonzero; lia).
  rewrite insert_many_start by lia.
  unfold bind at 1. rewrite (proj2 (Z.ltb_lt _ _)) by done.
  unfold bind at 1.
  rewrite (reserve_grow (env := hold env (ptr_ pos)))
    by (rewrite ?Hreq; done || unfold capacity; lia).
  rewrite Hreq. unfold bind at 1. rewrite begin_add by (simpl; lia).
  unfold bind at 1. unfold drop_iterator, ret. cbn [this mem data_ size_].
  f_equal. f_equal.
  set (R := release (env := hold env (ptr_ pos)) (data_ (this st)) (mem st)).
  assert (HR : length (R ++ [[]]) = S (length (mem st)))
    by (unfold R; by rewrite length_grown_store, length_release_hold).
  change (@grown T (hold env (ptr_ pos))) with (@grown T env).
  rewrite (assoc_L (++)).
  case_bool_decide as Hd.
  - rewrite Hd, release_dangling by lia. done.
  - rewrite release_snoc by (rewrite HR; done). done.
Qed.

(** A refused growth. *)
Lemma insert_many_refused (st : state T) (pos : VectorIterator) (args : list (operand T)) :
  wf st ->
  args <> [] ->
  0 <= index_ pos <= size_ (this st) ->
  size_ (this st) + Z.of_nat (length args) <= SIZE_MAX ->
  capacity_ (this st) < size_ (this st) + Z.of_nat (length args) ->
  alloc_ok (size_ (this st)) = false
  \/ alloc_ok (size_ (this st) + Z.of_nat (length args)) = false ->
  exists st', insert_many pos args st = Throw runtime_error st'
    /\ size_ (this st') = size_ (this st)
    /\ data_ (this st') = data_ (this st)
    /\ elements st' = elements st.
Proof.
  intros (Hsz & Hcap & Hcmax) Hargs Hp Hmax Hgrow Hfail.
  assert (Hn : 0 < Z.of_nat (length args)) by (destruct args; [done|simpl; lia]).
  assert (Hst : stored st) by (unfold stored; lia).
  assert (Hreq : requested (size_ (this st) + Z.of_nat (length args))
                 = size_ (this st) + Z.of_nat (length args))
    by (apply requested_nonzero; lia).
  rewrite insert_many_start by lia.
  unfold bind at 1. rewrite (proj2 (Z.ltb_lt _ _)) by done.
  unfold bind at 1.
  destruct (alloc_ok (size_ (this st))) eqn:Hok1.
  - destruct Hfail as [|Hok2]; [done|].
    rewrite (reserve_alloc_failure (env := hold env (ptr_ pos)))
      by (rewrite ?Hreq; done || unfold capacity; lia).
    eexists. split; [done|]. cbn [this mem size_ data_ set_capacity].
    split; [done|]. split; [done|].
    unfold elements. cbn [this mem size_ data_ set_capacity].
    by rewrite block_behind_empty.
  - rewrite (reserve_copy_failure (env := hold env (ptr_ pos)))
      by (rewrite ?Hreq; done || unfold capacity; lia).
    by exists st.
Qed.

(** What a returning call of insert_many leaves, whatever its arguments. *)
Lemma insert_many_returns (st : state T) (pos : VectorIterator) (args : list (operand T))
    (pos' : VectorIterator) (st' : state T) :
  wf st ->
  args <> [] ->
  0 <= index_ pos <= size_ (this st) ->
  size_ (this st) + Z.of_nat (length args) <= SIZE_MAX ->
  insert_many pos args st = Ret pos' st' ->
  exists xs,
    length xs = length args
    /\ wf st'
    /\ size_ (this st') = size_ (this st) + Z.of_nat (length args)
    /\ capacity_ (this st')
       = Z.max (capacity_ (this st)) (size_ (this st) + Z.of_nat (length args))
    /\ index_ pos' = index_ pos
    /\ elements st'
       = take (Z.to_nat (index_ pos)) (elements st) ++ xs
         ++ drop (Z.to_nat (index_ pos)) (elements st).
Proof.
  intros Hwf Hargs Hp Hmax Hrun.
  pose proof Hwf as (Hsz & Hcap & Hcmax).
  assert (Hst : stored st) by (unfold stored; lia).
  assert (Hn : 0 < Z.of_nat (length args)) by (destruct args; [done|simpl; lia]).
  destruct (decide (capacity_ (this st) < size_ (this st) + Z.of_nat (length args)))
    as [Hlt|Hge].
  - destruct (alloc_ok (size_ (this st))) eqn:Hok1; cycle 1.
    { destruct (insert_many_refused st pos args Hwf Hargs Hp Hmax Hlt)
        as (st2 & Hthrow & _); [by left|]. congruence. }
    destruct (alloc_ok (size_ (this st) + Z.of_nat (length args))) eqn:Hok2; cycle 1.
    { destruct (insert_many_refused st pos args Hwf Hargs Hp Hmax Hlt)
        as (st2 & Hthrow & _); [by right|]. congruence. }
    rewrite insert_many_grows in Hrun by done.
    destruct (regrown_blocks st pos) as (Hlen' & _).
    match type of Hrun with
    | insert_many_place _ _ _ ?q ?s = _ =>
        remember s as s1 eqn:Es1;
        assert (Hbl : block_len s1 = size_ (this st) + Z.of_nat (length args))
          by (subst s1; apply block_len_grown; [done|lia|done]);
        assert (Hel1 : elements s1 = elements st)
          by (subst s1; apply elements_grown; [done|lia|done])
    end.
    assert (Hs1 : size_ (this s1) = size_ (this st)) by (by subst s1).
    assert (Hc1 : capacity_ (this s1) = size_ (this st) + Z.of_nat (length args))
      by (by subst s1).
    clear Es1.
    match type of Hrun with
    | insert_many_place _ _ _ ?q _ = _ => set (q1 := q) in *
    end.
    destruct (insert_many_place_any s1 q1 args (index_ pos) Hargs) as
      [Hu|(xs & l & Hxs & Hd & Hl & Hret)];
      [lia|lia|lia|rewrite Hu in Hrun; discriminate Hrun|].
    rewrite Hret in Hrun. injection Hrun as Hpos' Hst'.
    destruct (placed_state s1 l xs (length args) (index_ pos) Hd Hl Hxs) with (st' := st')
      as (Hbl' & Hel' & _); [lia|lia|done|].
    assert (Hthis : this st' = set_size (size_ (this s1) + Z.of_nat (length args)) (this s1))
      by (by rewrite <- Hst').
    exists xs. unfold wf. rewrite Hbl', Hbl, Hthis, <- Hpos'.
    cbn [this size_ capacity_ set_size index_].
    split; [done|]. split; [lia|]. split; [lia|]. split; [lia|]. split; [done|].
    by rewrite Hel', Hel1.
  - rewrite insert_many_in_place in Hrun by lia.
    destruct (insert_many_place_any st pos args (index_ pos) Hargs) as
      [Hu|(xs & l & Hxs & Hd & Hl & Hret)];
      [lia|lia|lia|rewrite Hu in Hrun; discriminate Hrun|].
    rewrite Hret in Hrun. injection Hrun as Hpos' Hst'.
    destruct (placed_state st l xs (length args) (index_ pos) Hd Hl Hxs) with (st' := st')
      as (Hbl' & Hel' & _); [lia|lia|done|].
    assert (Hthis : this st' = set_size (size_ (this st) + Z.of_nat (length args)) (this st))
      by (by rewrite <- Hst').
    exists xs. unfold wf. rewrite Hbl', Hthis, <- Hpos'.
    cbn [this size_ capacity_ set_size index_].
    split; [done|]. split; [lia|]. split; [lia|]. split; [lia|]. split; [done|]. done.
Qed.

(** The blocks of the old store after a growth of insert_many that
    returned. *)
Lemma insert_many_grown_store (st : state T) (pos : VectorIterator)
    (args : list (operand T)) (pos' : VectorIterator) (st' : state T) :
  wf st ->
  args <> [] ->
  0 <= index_ pos <= size_ (this st) ->
  size_ (this st) + Z.of_nat (length args) <= SIZE_MAX ->
  capacity_ (this st) < size_ (this st) + Z.of_nat (length args) ->
  insert_many pos args st = Ret pos' st' ->
  data_ (this st') = Some (S (length (mem st)))
  /\ ptr_ pos' = Some (S (length (mem st)))
  /\ forall l0, (l0 < length (mem st))%nat ->
       block (mem st') (Some l0)
       = block (release (ptr_ pos)
                  (release (env := hold env (ptr_ pos)) (data_ (this st)) (mem st) ++ [[]]))
           (Some l0).
Proof.
  intros Hwf Hargs Hp Hmax Hlt Hrun.
  pose proof Hwf as (Hsz & Hcap & Hcmax).
  assert (Hst : stored st) by (unfold stored; lia).
  assert (Hn : 0 < Z.of_nat (length args)) by (destruct args; [done|simpl; lia]).
  destruct (alloc_ok (size_ (this st))) eqn:Hok1; cycle 1.
  { destruct (insert_many_refused st pos args Hwf Hargs Hp Hmax Hlt)
      as (st2 & Hthrow & _); [by left|]. congruence. }
  destruct (alloc_ok (size_ (this st) + Z.of_nat (length args))) eqn:Hok2; cycle 1.
  { destruct (insert_many_refused st pos args Hwf Hargs Hp Hmax Hlt)
      as (st2 & Hthrow & _); [by right|]. congruence. }
  rewrite insert_many_grows in Hrun by done.
  destruct (regrown_blocks st pos) as (Hlen' & _).
  match type of Hrun with
  | insert_many_place _ _ _ ?q ?s = _ =>
      set (q1 := q) in *; set (s1 := s) in *;
      assert (Hbl : block_len s1 = size_ (this st) + Z.of_nat (length args))
        by (apply block_len_grown; [done|lia|done])
  end.
  destruct (insert_many_place_any s1 q1 args (index_ pos) Hargs) as
    [Hu|(xs & l & Hxs & Hd & Hl & Hret)];
    [simpl; lia|rewrite Hbl; simpl; lia|simpl; lia|rewrite Hu in Hrun; discriminate Hrun|].
  rewrite Hret in Hrun. injection Hrun as Hpos' Hst'.
  simpl in Hd. injection Hd as <-.
  rewrite <- Hst', <- Hpos'. split; [done|]. split; [done|].
  intros l0 Hl0. cbn [mem s1].
  rewrite block_insert_ne by (intros [=]; lia).
  apply block_prefix. lia.
Qed.


(** Extra: a returning insert_many with at least one argument keeps the data
    model [size_ <= capacity_ <= allocated slots], and leaves capacity() at the
    larger of the old capacity and size() + n: it grows to exactly what the
    batch needs, never by doubling. *)
Theorem insert_many_keeps_data_model (st : state T) (pos : VectorIterator)
    (args : list (operand T)) (pos' : VectorIterator) (st' : state T) :
  wf st ->
  args <> [] ->
  0 <= index_ pos <= size (this st) ->
  size (this st) + Z.of_nat (length args) <= SIZE_MAX ->
  insert_many pos args st = Ret pos' st' ->
  wf st'
  /\ capacity (this st')
     = Z.max (capacity (this st)) (size (this st) + Z.of_nat (length args)).
Proof.
  unfold size, capacity. intros Hwf Hargs Hp Hmax Hrun.
  destruct (insert_many_returns st pos args pos' st' Hwf Hargs Hp Hmax Hrun)
    as (xs & _ & Hwf' & _ & Hcap & _).
  by split.
Qed.

(** Extra: when the growth step of insert_many is refused, the call throws
    the runtime_error of allocate_vector before any element is shifted or
    written: size() and the elements are as before the call. *)
Theorem insert_many_refused_growth (st : state T) (pos : VectorIterator)
    (args : list (operand T)) :
  wf st ->
  args <> [] ->
  0 <= index_ pos <= size (this st) ->
  size (this st) + Z.of_nat (length args) <= SIZE_MAX ->
  capacity (this st) < size (this st) + Z.of_nat (length args) ->
  alloc_ok (size (this st)) = false
  \/ alloc_ok (size (this st) + Z.of_nat (length args)) = false ->
  exists st', insert_many pos args st = Throw runtime_error st'
    /\ size (this st') = size (this st)
    /\ elements st' = elements st.
Proof.
  unfold size, capacity. intros Hwf Hargs Hp Hmax Hgrow Hfail.
  destruct (insert_many_refused st pos args Hwf Hargs Hp Hmax Hgrow Hfail)
    as (st' & Hrun & Hsize & _ & Hel).
  by exists st'.
Qed.

(** Extra: when insert_many grows the vector, the vector moves to a new
    block and the returned iterator points into it.  The buffer the vector had
    before is left as it was if another owner (an iterator taken before the
    call) still holds it: that iterator keeps reading the old elements, not the
    inserted ones.  If no one else holds it, the old buffer is released, and
    nothing can be read through a pointer into it. *)
Theorem insert_many_growth_leaves_old_buffer (st : state T) (pos : VectorIterator)
    (args : list (operand T)) (pos' : VectorIterator) (st' : state T) (l : nat) :
  wf st ->
  args <> [] ->
  0 <= index_ pos <= size (this st) ->
  size (this st) + Z.of_nat (length args) <= SIZE_MAX ->
  capacity (this st) < size (this st) + Z.of_nat (length args) ->
  data_ (this st) = Some l ->
  (l < length (mem st))%nat ->
  insert_many pos args st = Ret pos' st' ->
  ptr_ pos' = data_ (this st')
  /\ data_ (this st') <> data_ (this st)
  /\ load (mem st') (ptr_ pos') (index_ pos') = elements st' !! Z.to_nat (index_ pos)
  /\ (pinned l = true ->
      forall j, 0 <= j < size (this st) ->
        load (mem st') (data_ (this st)) j = elements st !! Z.to_nat j)
  /\ (pinned l = false ->
      forall j, load (mem st') (data_ (this st)) j = None).
Proof.
  unfold size, capacity. intros Hwf Hargs Hp Hmax Hlt Hd Hl Hrun.
  destruct (insert_many_returns st pos args pos' st' Hwf Hargs Hp Hmax Hrun)
    as (xs & Hxs & Hwf' & Hsize' & _ & Hidx & Hel').
  destruct (insert_many_grown_store st pos args pos' st' Hwf Hargs Hp Hmax Hlt Hrun)
    as (Hd' & Hptr' & Hold).
  destruct (regrown_blocks st pos) as (_ & Hkept & Hfreed).
  destruct Hwf as (Hsz & Hcap & Hcmax). unfold block_len in Hcap.
  assert (Hn : 0 < Z.of_nat (length args)) by (destruct args; [done|simpl; lia]).
  split; [congruence|]. split; [rewrite Hd', Hd; intros [=]; lia|].
  split; [|split].
  - unfold load, elements. rewrite Hptr', Hd', Hidx.
    by rewrite lookup_take_lt by lia.
  - intros Hpin j Hj. unfold load, elements. rewrite Hd, Hold by done.
    rewrite Hkept by (done || by left). rewrite <- Hd.
    by rewrite lookup_take_lt by lia.
  - intros Hpin j. unfold load. rewrite Hd, Hold by done.
    by rewrite Hfreed by (done || by left).
Qed.

End HeldBlocks.

(** * insert, which holds the block of its parameter *)

Section InsertProofs.

Context {T : Type} {env : Environment T}.

(** Extra: insert(pos, x) followed by erase of the returned iterator gives
    back the elements and the size the vector had. *)
Theorem insert_then_erase (st : state T) (pos : VectorIterator) (x : operand T)
    (pos' : VectorIterator) (st1 : state T) :
  wf st ->
  0 <= index_ pos <= size (this st) ->
  size (this st) + 1 <= SIZE_MAX ->
  insert pos x st = Ret pos' st1 ->
  exists st2, erase pos' st1 = Ret tt st2
    /\ elements st2 = elements st
    /\ size (this st2) = size (this st).
Proof.
  unfold size, insert. intros Hwf Hp Hmax Hrun.
  destruct (insert_many_returns (env := hold env (ptr_ pos)) st pos [x] pos' st1 Hwf)
    as (xs & Hxs & Hwf1 & Hsize1 & _ & Hidx & Hel1); [done|done|simpl; lia|done|].
  simpl in Hsize1.
  assert (Hst1 : stored st1).
  { destruct Hwf1 as (? & ? & ?). unfold stored. lia. }
  destruct (erase_returns st1 pos' Hst1) as (st2 & Herase & Hthis & _ & Hel2); [lia|].
  exists st2. split; [done|]. split; [|rewrite Hthis; simpl; lia].
  rewrite Hel2, Hel1, Hidx.
  assert (Hlen : length (take (Z.to_nat (index_ pos)) (elements st))
                 = Z.to_nat (index_ pos)).
  { rewrite length_take. unfold elements. rewrite length_take.
    destruct Hwf as (? & Hcap & ?). unfold block_len in Hcap. lia. }
  rewrite take_app_length' by done.
  rewrite (assoc_L (++)).
  rewrite drop_app_length' by (rewrite length_app; simpl in *; lia).
  by rewrite take_drop.
Qed.

End InsertProofs.

(** * Scenarios *)

Example initialized_123 :
  Vector_items [1; 2; 3] []
  = Ret {| data_ := Some 0%nat; size_ := 3; capacity_ := 3 |} [[1; 2; 3]].
Proof. reflexivity. Qed.

Example begin_plus_1 :
  it_add (begin (this (initialized [1; 2; 3]))) 1 (initialized [1; 2; 3])
  = Ret (begin_plus (initialized [1; 2; 3]) 1) (initialized [1; 2; 3]).
Proof. reflexivity. Qed.


(** An argument that refers to an element before the insertion offset, with
    room left: {1,2,3} at capacity 4, insert_many(begin()+1, v[0]). *)
Example insert_many_reference_before_offset :
  exists st pos' st',
    reserve 4 (initialized [1; 2; 3]) = Ret tt st
    /\ insert_many (begin_plus st 1) [Ref {| ref_ptr := data_ (this st); ref_slot := 0 |}] st
       = Ret pos' st'
    /\ elements st' = [1; 1; 2; 3].
Proof.
  exists {| this := {| data_ := Some 2%nat; size_ := 3; capacity_ := 4 |};
            mem := [[]; []; [1; 2; 3; 0]] |},
         {| ptr_ := Some 2%nat; bound_ := 3; index_ := 1 |},
         {| this := {| data_ := Some 2%nat; size_ := 4; capacity_ := 4 |};
            mem := [[]; []; [1; 1; 2; 3]] |}.
  repeat split; by vm_compute.
Qed.


(** {2,3,5,7,1}: at(4) reads 1. *)
Lemma at_checked_witness :
  stored (initialized [2; 3; 5; 7; 1])
  /\ 0 <= 4
  /\ (at_ 4 (initialized [2; 3; 5; 7; 1])
        = Throw out_of_range (initialized [2; 3; 5; 7; 1])
      <-> size (this (initialized [2; 3; 5; 7; 1])) <= 4)
  /\ subscript 4 (initialized [2; 3; 5; 7; 1]) = at_ 4 (initialized [2; 3; 5; 7; 1])
  /\ (4 < size (this (initialized [2; 3; 5; 7; 1])) ->
      exists r x, at_ 4 (initialized [2; 3; 5; 7; 1])
                    = Ret r (initialized [2; 3; 5; 7; 1])
                  /\ deref (mem (initialized [2; 3; 5; 7; 1])) r = Some x
                  /\ elements (initialized [2; 3; 5; 7; 1]) !! Z.to_nat 4 = Some x)
  /\ (size (this (initialized [2; 3; 5; 7; 1])) = 0 ->
      front (initialized [2; 3; 5; 7; 1])
        = Throw out_of_range (initialized [2; 3; 5; 7; 1])
      /\ back (initialized [2; 3; 5; 7; 1])
         = Throw out_of_range (initialized [2; 3; 5; 7; 1])).
Proof.
  assert (Hst : stored (initialized [2; 3; 5; 7; 1]))
    by (vm_compute; intuition discriminate).
  assert (H0 : 0 <= 4) by lia.
  exact (conj Hst (conj H0 (at_checked (initialized [2; 3; 5; 7; 1]) 4 Hst H0))).
Defined.

Example at_scenario :
  exists r, at_ 0 (initialized [2; 3; 5; 7; 1]) = Ret r (initialized [2; 3; 5; 7; 1])
            /\ deref (mem (initialized [2; 3; 5; 7; 1])) r = Some 2.
Proof. eexists. split; reflexivity. Qed.

Example front_back_empty :
  front (initialized []) = Throw out_of_range (initialized [])
  /\ back (initialized []) = Throw out_of_range (initialized [])
  /\ at_ 1 default_constructed = Throw out_of_range default_constructed.
Proof. repeat split. Qed.

(** {1,2,3}: set_element(1, 9) gives {1,9,3}. *)
Lemma set_element_frame_witness :
  stored (initialized [1; 2; 3])
  /\ exists st', set_element 1 9 (initialized [1; 2; 3]) = Ret tt st'
       /\ size (this st') = 3
       /\ capacity (this st') = 3
       /\ elements st' = [1; 9; 3].
Proof.
  assert (Hst : stored (initialized [1; 2; 3])) by (vm_compute; intuition discriminate).
  split; [exact Hst|].
  destruct (set_element_frame (initialized [1; 2; 3]) 1 9 Hst) as [Hin _]; [lia|].
  destruct Hin as (st' & Hrun & Hsize & Hcap & _ & _ & Hel); [reflexivity|].
  exists st'. repeat split; assumption.
Defined.

(** {1,2,3} at capacity 10: reserve(20), and shrink_to_fit, which moves the
    elements to a block of 3 slots. *)
Lemma reserve_shrink_capacity_witness :
  wf reserved_123
  /\ (exists s1, reserve 20 reserved_123 = Ret tt s1
                 /\ capacity (this s1) = 20
                 /\ block_len s1 = 20
                 /\ size (this s1) = 3
                 /\ elements s1 = [1; 2; 3])
  /\ (exists s2, shrink_to_fit reserved_123 = Ret tt s2
                 /\ capacity (this s2) = size (this s2)
                 /\ size (this s2) = 3
                 /\ elements s2 = [1; 2; 3]
                 /\ block_len s2 = 3).
Proof.
  assert (Hwf : wf reserved_123) by (vm_compute; intuition discriminate).
  split; [exact Hwf|].
  destruct (reserve_shrink_capacity reserved_123 20 Hwf)
    as (_ & _ & _ & Hgrow & _ & Hshrink).
  split.
  - apply Hgrow; [lia|vm_compute; reflexivity|reflexivity|reflexivity].
  - destruct Hshrink as (s2 & Hrun & Hcap & Hsize & Hel & _ & Hblk); [reflexivity|].
    exists s2. split; [exact Hrun|]. split; [exact Hcap|]. split; [exact Hsize|].
    split; [exact Hel|]. apply Hblk. vm_compute; reflexivity.
Defined.

(** C7 as stated fails on the code in two ways.  On a vector the public
    operations reach with size() above capacity() (the sequence of C3),
    shrink_to_fit, which only acts when size_ < capacity_, returns with nothing
    changed: capacity() = 3 is not size() = 5.  And a reserve above capacity()
    whose copy of the elements is refused throws with the capacity it found:
    on {1,2,3,4,5}, reserve(10) leaves capacity() = 5. *)
Lemma shrink_to_fit_size_above_capacity :
  (exists st st',
     moved_and_popped = Ret tt st
     /\ insert_many_back (values [7; 8; 9]) st = Ret tt st'
     /\ size (this st') = 5
     /\ capacity (this st') = 3
     /\ shrink_to_fit st' = Ret tt st'
     /\ capacity (this st') <> size (this st'))
  /\ (capacity (this (initialized [1; 2; 3; 4; 5])) < 10
      /\ @reserve Z small_allocator 10 (initialized [1; 2; 3; 4; 5])
         = Throw runtime_error (initialized [1; 2; 3; 4; 5])
      /\ capacity (this (initialized [1; 2; 3; 4; 5])) <> 10).
Proof.
  split.
  - exists {| this := {| data_ := Some 2%nat; size_ := 2; capacity_ := 3 |};
              mem := [[]; []; [1; 2; 3; 0; 0; 0; 0; 0; 0; 0]] |},
           {| this := {| data_ := Some 2%nat; size_ := 5; capacity_ := 3 |};
              mem := [[]; []; [1; 2; 7; 8; 9; 0; 0; 0; 0; 0]] |}.
    repeat split; by vm_compute.
  - repeat split; by vm_compute.
Qed.

Example reserve_scenario :
  exists st, reserve 2 default_constructed = Ret tt st
             /\ capacity (this st) = 2 /\ size (this st) = 0.
Proof. eexists. repeat split. Qed.

(** {1,2,3,4}: erase(begin()+1) gives {1,3,4}. *)
Lemma erase_shifts_left_witness :
  stored (initialized [1; 2; 3; 4])
  /\ exists st', erase (begin_plus (initialized [1; 2; 3; 4]) 1) (initialized [1; 2; 3; 4])
                 = Ret tt st'
       /\ size (this st') = 3
       /\ elements st' = [1; 3; 4].
Proof.
  assert (Hst : stored (initialized [1; 2; 3; 4])) by (vm_compute; intuition discriminate).
  split; [exact Hst|].
  destruct (erase_shifts_left (initialized [1; 2; 3; 4])
              (begin_plus (initialized [1; 2; 3; 4]) 1) 1 Hst)
    as (st' & Hrun & Hsize & _ & Hel & _); [reflexivity|vm_compute; intuition discriminate|].
  exists st'. repeat split; assumption.
Defined.

(** * Where the code leaves the specified behaviour *)

(** C2: {1,2} at capacity 2, insert_many_back(1,2,3,4,5).  size() == capacity()
    holds, so the capacity is doubled, to 4, and the block has 4 slots; the
    fold then writes slots 2..6.  The call does not yield {1,2,1,2,3,4,5} at a
    capacity of 7 or more: the third write is outside the block. *)
Theorem insert_many_back_overflow :
  size (this (initialized [1; 2])) = 2
  /\ capacity (this (initialized [1; 2])) = 2
  /\ (exists st1,
        reserve (wrap (capacity (this (initialized [1; 2])) * 2))
          (initialized [1; 2])
        = Ret tt st1
        /\ capacity (this st1) = 4
        /\ block_len st1 = 4
        /\ (exists st2, append_args (values [1; 2]) st1 = Ret tt st2
                        /\ elements st2 = [1; 2; 1; 2]
                        /\ append_args (values [3; 4; 5]) st2 = Undefined))
  /\ insert_many_back (values [1; 2; 3; 4; 5]) (initialized [1; 2]) = Undefined.
Proof.
  split; [by vm_compute|]. split; [by vm_compute|]. split; [|by vm_compute].
  exists {| this := {| data_ := Some 2%nat; size_ := 2; capacity_ := 4 |};
            mem := [[]; []; [1; 2; 0; 0]] |}.
  split; [by vm_compute|]. split; [by vm_compute|]. split; [by vm_compute|].
  exists {| this := {| data_ := Some 2%nat; size_ := 4; capacity_ := 4 |};
            mem := [[]; []; [1; 2; 1; 2]] |}.
  split; [by vm_compute|]. split; by vm_compute.
Qed.

(** C3: the invariant size <= capacity is not preserved by insert_many_back.
    After  Vector<int> a{1,2,3}; a.reserve(10); Vector<int> b(std::move(a));
    b.pop_back();  the vector b has size 2 and capacity 3 in a block of 10
    slots; b.insert_many_back(7,8,9) finds size() != capacity(), does not grow,
    and writes three slots of the block: every call returns, and b ends with
    size 5 above capacity 3. *)
Theorem size_exceeds_capacity :
  exists st,
    moved_and_popped = Ret tt st
    /\ wf st
    /\ size (this st) = 2 /\ capacity (this st) = 3 /\ block_len st = 10
    /\ exists st',
         insert_many_back (values [7; 8; 9]) st = Ret tt st'
         /\ elements st' = [1; 2; 7; 8; 9]
         /\ size (this st') = 5
         /\ capacity (this st') = 3
         /\ ~ (size (this st') <= capacity (this st')).
Proof.
  exists {| this := {| data_ := Some 2%nat; size_ := 2; capacity_ := 3 |};
            mem := [[]; []; [1; 2; 3; 0; 0; 0; 0; 0; 0; 0]] |}.
  split; [by vm_compute|].
  split; [vm_compute; intuition discriminate|].
  split; [by vm_compute|]. split; [by vm_compute|]. split; [by vm_compute|].
  exists {| this := {| data_ := Some 2%nat; size_ := 5; capacity_ := 3 |};
            mem := [[]; []; [1; 2; 7; 8; 9; 0; 0; 0; 0; 0]] |}.
  split; [by vm_compute|].
  split; [by vm_compute|]. split; [by vm_compute|]. split; [by vm_compute|].
  vm_compute. intros H. by apply H.
Qed.

(** C4: a = std::move(b) with a empty and b = {1,2,3}.  [a] receives the
    elements; [b] is left as it was, with size 3 and capacity 3, where the move
    constructor leaves its source at size 0 and capacity 0. *)
Theorem move_assign_keeps_source :
  let b := this (initialized [1; 2; 3]) in
  let a := {| this := Vector_default; mem := mem (initialized [1; 2; 3]) |} in
  exists b' st',
    move_assign b a = Ret b' st'
    /\ elements st' = [1; 2; 3]
    /\ b' = b
    /\ size b' = 3
    /\ capacity b' = 3
    /\ elements {| this := b'; mem := mem st' |} = [1; 2; 3]
    /\ size (Vector_move b).2 = 0
    /\ capacity (Vector_move b).2 = 0.
Proof.
  exists {| data_ := Some 0%nat; size_ := 3; capacity_ := 3 |},
         {| this := {| data_ := Some 1%nat; size_ := 3; capacity_ := 3 |};
            mem := [[1; 2; 3]; [1; 2; 3]] |}.
  repeat split; by vm_compute.
Qed.

(** C6: {1,2,3}, reserve(SIZE_MAX - 1), the call of the test
    Capacity_reserve_4_throw.  The copy of the three elements is allocated, the
    request for the new block is refused, and the exception leaves size and
    elements as they were but capacity() at the refused request. *)
Theorem reserve_failure_changes_capacity :
  alloc_ok (SIZE_MAX - 1) = false
  /\ exists st',
       reserve (SIZE_MAX - 1) (initialized [1; 2; 3])
       = Throw runtime_error st'
       /\ size (this st') = 3
       /\ elements st' = [1; 2; 3]
       /\ data_ (this st') = data_ (this (initialized [1; 2; 3]))
       /\ capacity (this (initialized [1; 2; 3])) = 3
       /\ capacity (this st') = SIZE_MAX - 1
       /\ block_len st' = 3.
Proof.
  split; [by vm_compute|].
  exists {| this := {| data_ := Some 0%nat; size_ := 3; capacity_ := SIZE_MAX - 1 |};
            mem := [[1; 2; 3]; []] |}.
  repeat split; by vm_compute.
Qed.

(** * Scenarios for the further properties *)

Example reserved_123_reached :
  reserve 10 (initialized [1; 2; 3]) = Ret tt reserved_123.
Proof. by vm_compute. Qed.

Lemma insert_many_keeps_data_model_witness :
  wf {| this := {| data_ := Some 2%nat; size_ := 6; capacity_ := 6 |};
        mem := [[]; []; [1; 4; 5; 6; 2; 3]] |}
  /\ capacity {| data_ := Some 2%nat; size_ := 6; capacity_ := 6 |} = 6.
Proof.
  apply (insert_many_keeps_data_model (initialized [1; 2; 3])
           (begin_plus (initialized [1; 2; 3]) 1) (values [4; 5; 6])
           {| ptr_ := Some 2%nat; bound_ := 3; index_ := 1 |}
           {| this := {| data_ := Some 2%nat; size_ := 6; capacity_ := 6 |};
              mem := [[]; []; [1; 4; 5; 6; 2; 3]] |}).
  - vm_compute; intuition discriminate.
  - done.
  - vm_compute; intuition discriminate.
  - vm_compute; discriminate.
  - by vm_compute.
Defined.

Lemma insert_many_refused_growth_witness :
  exists st',
    @insert_many Z small_allocator (begin_plus (initialized [1; 2; 3]) 1)
      (values [4; 5; 6]) (initialized [1; 2; 3])
    = Throw runtime_error st'
    /\ size (this st') = 3
    /\ elements st' = [1; 2; 3].
Proof.
  apply (@insert_many_refused_growth Z small_allocator (initialized [1; 2; 3])
           (begin_plus (initialized [1; 2; 3]) 1) (values [4; 5; 6])).
  - vm_compute; intuition discriminate.
  - done.
  - vm_compute; intuition discriminate.
  - vm_compute; discriminate.
  - by vm_compute.
  - right. by vm_compute.
Defined.

(** {1,2,3}, insert_many(begin()+1, 4,5,6) while the caller keeps an iterator
    into the old buffer: the iterator still reads 2 at slot 1, the returned
    iterator reads 4. *)
Lemma insert_many_growth_leaves_old_buffer_witness :
  load [[1; 2; 3]; []; [1; 4; 5; 6; 2; 3]] (Some 2%nat) 1 = Some 4
  /\ load [[1; 2; 3]; []; [1; 4; 5; 6; 2; 3]] (Some 0%nat) 1 = Some 2.
Proof.
  destruct (@insert_many_growth_leaves_old_buffer Z caller_keeps_first_block
              (initialized [1; 2; 3])
              (begin_plus (initialized [1; 2; 3]) 1) (values [4; 5; 6])
              {| ptr_ := Some 2%nat; bound_ := 3; index_ := 1 |}
              {| this := {| data_ := Some 2%nat; size_ := 6; capacity_ := 6 |};
                 mem := [[1; 2; 3]; []; [1; 4; 5; 6; 2; 3]] |} 0%nat)
    as (_ & _ & Hnew & Hold & _).
  - vm_compute; intuition discriminate.
  - done.
  - vm_compute; intuition discriminate.
  - vm_compute; discriminate.
  - by vm_compute.
  - by vm_compute.
  - vm_compute; lia.
  - by vm_compute.
  - split; [exact Hnew|]. apply (Hold eq_refl 1). vm_compute; intuition discriminate.
Defined.

(** The same call when no one else holds the old buffer: it is released. *)
Example insert_many_growth_releases_old_buffer :
  exists pos' st',
    insert_many (begin_plus (initialized [1; 2; 3]) 1) (values [4; 5; 6])
      (initialized [1; 2; 3])
    = Ret pos' st'
    /\ load (mem st') (ptr_ pos') 1 = Some 4
    /\ load (mem st') (data_ (this (initialized [1; 2; 3]))) 1 = None.
Proof.
  exists {| ptr_ := Some 2%nat; bound_ := 3; index_ := 1 |},
         {| this := {| data_ := Some 2%nat; size_ := 6; capacity_ := 6 |};
            mem := [[]; []; [1; 4; 5; 6; 2; 3]] |}.
  repeat split; by vm_compute.
Qed.

Lemma insert_then_erase_witness :
  exists st2,
    erase {| ptr_ := Some 2%nat; bound_ := 3; index_ := 1 |}
      {| this := {| data_ := Some 2%nat; size_ := 4; capacity_ := 4 |};
         mem := [[1; 2; 3]; []; [1; 5; 2; 3]] |}
    = Ret tt st2
    /\ elements st2 = [1; 2; 3]
    /\ size (this st2) = 3.
Proof.
  apply (insert_then_erase (initialized [1; 2; 3])
           (begin_plus (initialized [1; 2; 3]) 1) (Val 5)).
  - vm_compute; intuition discriminate.
  - vm_compute; intuition discriminate.
  - vm_compute; discriminate.
  - by vm_compute.
Defined.

Lemma erase_empty_undefined_witness :
  erase (begin_plus default_constructed 0) default_constructed = Undefined
  /\ pop_back default_constructed = Ret tt default_constructed.
Proof.
  apply (erase_empty_undefined default_constructed (begin_plus default_constructed 0)).
  - done.
  - vm_compute; intuition discriminate.
  - vm_compute; discriminate.
Defined.

Lemma push_back_appends_witness :
  exists st' r,
    push_back (Val 3) (initialized [1; 2]) = Ret tt st'
    /\ elements st' = [1; 2; 3]
    /\ size (this st') = 3
    /\ capacity (this st') = 4
    /\ wf st'
    /\ back st' = Ret r st'
    /\ deref (mem st') r = Some 3.
Proof.
  apply (push_back_appends (initialized [1; 2]) (Val 3) 3).
  - vm_compute; intuition discriminate.
  - vm_compute; discriminate.
  - intros _. split; by vm_compute.
  - repeat constructor.
Defined.

(** push_back(v[0]) with room left: {1,2,3} at capacity 10 becomes
    {1,2,3,1}. *)
Example push_back_own_element_in_place :
  exists st',
    push_back (Ref {| ref_ptr := data_ (this reserved_123); ref_slot := 0 |}) reserved_123
    = Ret tt st'
    /\ elements st' = [1; 2; 3; 1].
Proof.
  exists {| this := {| data_ := Some 2%nat; size_ := 4; capacity_ := 10 |};
            mem := [[]; []; [1; 2; 3; 1; 0; 0; 0; 0; 0; 0]] |}.
  split; by vm_compute.
Qed.

Lemma push_back_then_pop_back_witness :
  exists st1 st2,
    push_back (Val 3) (initialized [1; 2]) = Ret tt st1
    /\ pop_back st1 = Ret tt st2
    /\ elements st2 = [1; 2]
    /\ size (this st2) = 2
    /\ capacity (this st2) = capacity (this st1)
    /\ 2 <= capacity (this st2).
Proof.
  apply (push_back_then_pop_back (initialized [1; 2]) (Val 3) 3).
  - vm_compute; intuition discriminate.
  - vm_compute; discriminate.
  - intros _. split; by vm_compute.
  - repeat constructor.
Defined.

(** {1,2} at capacity 2, push_back(v[0]). *)
Lemma push_back_own_element_released_witness :
  push_back (Ref {| ref_ptr := Some 0%nat; ref_slot := 0 |}) (initialized [1; 2])
  = Undefined.
Proof.
  apply (push_back_own_element_released (initialized [1; 2]) 0%nat 0).
  - vm_compute; intuition discriminate.
  - by vm_compute.
  - vm_compute; lia.
  - by vm_compute.
  - by vm_compute.
  - vm_compute; discriminate.
  - by vm_compute.
  - by vm_compute.
Defined.

Lemma insert_many_back_overrun_witness :
  insert_many_back (values [1; 2; 3; 4; 5]) (initialized [1; 2]) = Undefined.
Proof.
  apply (insert_many_back_overrun (initialized [1; 2]) (values [1; 2; 3; 4; 5])).
  - vm_compute; intuition discriminate.
  - vm_compute; discriminate.
  - vm_compute; discriminate.
  - intros _. split; by vm_compute.
  - by vm_compute.
Defined.

Lemma insert_many_back_exceeds_capacity_witness :
  exists st',
    insert_many_back (values [7; 8; 9])
      {| this := {| data_ := Some 2%nat; size_ := 2; capacity_ := 3 |};
         mem := [[]; []; [1; 2; 3; 0; 0; 0; 0; 0; 0; 0]] |}
    = Ret tt st'
    /\ elements st' = [1; 2; 7; 8; 9]
    /\ capacity (this st') = 3
    /\ capacity (this st') < size (this st').
Proof.
  apply (insert_many_back_exceeds_capacity
           {| this := {| data_ := Some 2%nat; size_ := 2; capacity_ := 3 |};
              mem := [[]; []; [1; 2; 3; 0; 0; 0; 0; 0; 0; 0]] |}
           (values [7; 8; 9]) [7; 8; 9]).
  - vm_compute; intuition discriminate.
  - by vm_compute.
  - by vm_compute.
  - vm_compute; discriminate.
  - vm_compute; discriminate.
  - repeat constructor.
Defined.

Lemma insert_many_back_fits_witness :
  exists st',
    insert_many_back (values [1; 2; 3; 4; 5]) (initialized [1; 2; 3; 4; 5]) = Ret tt st'
    /\ capacity (this st') = 10
    /\ size (this st') = 10
    /\ elements st' = [1; 2; 3; 4; 5; 1; 2; 3; 4; 5].
Proof.
  destruct (insert_many_back_fits (initialized [1; 2; 3; 4; 5]) (values [1; 2; 3; 4; 5])
              [1; 2; 3; 4; 5])
    as [_ Hfull].
  - vm_compute; intuition discriminate.
  - done.
  - repeat constructor.
  - apply Hfull.
    + by vm_compute.
    + vm_compute; discriminate.
    + vm_compute; discriminate.
    + by vm_compute.
    + by vm_compute.
Defined.

Lemma Vector_items_spec_witness :
  exists v, Vector_items [2; 3; 5; 7; 1] [] = Ret v [[2; 3; 5; 7; 1]]
    /\ size v = 5
    /\ capacity v = 5
    /\ elements {| this := v; mem := [[2; 3; 5; 7; 1]] |} = [2; 3; 5; 7; 1]
    /\ wf {| this := v; mem := [[2; 3; 5; 7; 1]] |}.
Proof.
  destruct (Vector_items_spec [2; 3; 5; 7; 1] []) as [Hok _].
  - vm_compute; discriminate.
  - apply Hok. by vm_compute.
Defined.

Lemma Vector_fill_spec_witness :
  exists v, Vector_fill 3 7 [] = Ret v [[7; 7; 7]]
    /\ size v = 3
    /\ capacity v = 3
    /\ elements {| this := v; mem := [[7; 7; 7]] |} = [7; 7; 7]
    /\ wf {| this := v; mem := [[7; 7; 7]] |}.
Proof.
  destruct (Vector_fill_spec 3 7 []) as [Hok _].
  - vm_compute; intuition discriminate.
  - apply Hok. by vm_compute.
Defined.

Lemma Vector_copy_independent_witness :
  exists v' h',
    Vector_copy (this (initialized [2; 3; 5])) (mem (initialized [2; 3; 5]))
    = Ret v' h'
    /\ size v' = 3
    /\ capacity v' = 3
    /\ elements {| this := v'; mem := h' |} = [2; 3; 5]
    /\ exists st'',
         set_element 1 9 {| this := v'; mem := h' |} = Ret tt st''
         /\ elements st'' = [2; 9; 5]
         /\ elements {| this := this (initialized [2; 3; 5]); mem := mem st'' |}
            = [2; 3; 5].
Proof.
  destruct (Vector_copy_independent (this (initialized [2; 3; 5]))
              (mem (initialized [2; 3; 5])))
    as (v' & h' & Hcopy & Hsize & Hcap & Hel & _ & Hset).
  - vm_compute; intuition discriminate.
  - by vm_compute.
  - exists v', h'. split; [exact Hcopy|]. split; [exact Hsize|]. split; [exact Hcap|].
    split; [exact Hel|]. apply (Hset 1 9). vm_compute; intuition discriminate.
Defined.

Lemma move_assign_result_witness :
  exists st',
    move_assign (this reserved_123)
      {| this := Vector_default; mem := mem reserved_123 |}
    = Ret (this reserved_123) st'
    /\ elements st' = [1; 2; 3]
    /\ size (this st') = 3
    /\ capacity (this st') = 10
    /\ block_len st' = 3
    /\ forall x, push_back x st' = Undefined.
Proof.
  destruct (move_assign_result (this reserved_123)
              {| this := Vector_default; mem := mem reserved_123 |})
    as [Hok _].
  - vm_compute; intuition discriminate.
  - vm_compute; discriminate.
  - destruct Hok as (st' & Hrun & Hel & Hsize & Hcap & Hblk & Hpush); [by vm_compute|].
    exists st'. split; [exact Hrun|]. split; [exact Hel|]. split; [exact Hsize|].
    split; [exact Hcap|]. split; [exact Hblk|]. apply Hpush. by vm_compute.
Defined.

Lemma set_element_then_at_witness :
  exists st', set_element 1 9 (initialized [1; 2; 3]) = Ret tt st'
    /\ (exists r, at_ 1 st' = Ret r st' /\ deref (mem st') r = Some 9)
    /\ (exists r, at_ 2 st' = Ret r st' /\ deref (mem st') r = Some 3).
Proof.
  destruct (set_element_then_at (initialized [1; 2; 3]) 1 9)
    as (st' & Hrun & Hsame & Hother).
  - vm_compute; intuition discriminate.
  - vm_compute; intuition discriminate.
  - exists st'. split; [exact Hrun|]. split; [exact Hsame|].
    apply (Hother 2); [vm_compute; intuition discriminate|discriminate].
Defined.

Lemma data_model_kept_witness :
  wf reserved_123
  /\ wf {| this := {| data_ := Some 2%nat; size_ := 2; capacity_ := 10 |};
           mem := mem reserved_123 |}.
Proof.
  assert (Hwf : wf (initialized [1; 2; 3])) by (vm_compute; intuition discriminate).
  destruct (data_model_kept (initialized [1; 2; 3]) Hwf) as (Hreserve & _).
  destruct (Hreserve 10 reserved_123) as [Hwf1 _];
    [vm_compute; intuition discriminate|by vm_compute|].
  split; [exact Hwf1|].
  destruct (data_model_kept reserved_123 Hwf1) as (_ & _ & Hpop & _).
  apply Hpop. by vm_compute.
Defined.

Lemma shrink_to_fit_refused_witness :
  exists st',
    @shrink_to_fit Z small_allocator
      {| this := {| data_ := Some 0%nat; size_ := 5; capacity_ := 8 |};
         mem := [[1; 2; 3; 4; 5; 0; 0; 0]] |}
    = Throw bad_alloc st'
    /\ capacity (this st') = 5
    /\ size (this st') = 5
    /\ elements st' = [1; 2; 3; 4; 5].
Proof.
  apply (@shrink_to_fit_refused Z small_allocator
           {| this := {| data_ := Some 0%nat; size_ := 5; capacity_ := 8 |};
              mem := [[1; 2; 3; 4; 5; 0; 0; 0]] |}).
  - by vm_compute.
  - by vm_compute.
Defined.

Lemma reserve_refused_witness :
  exists st',
    @reserve Z small_allocator 10 (initialized [1; 2; 3]) = Throw runtime_error st'
    /\ size (this st') = 3
    /\ elements st' = [1; 2; 3]
    /\ capacity (this st') = 10
    /\ block_len st' = 3
    /\ ~ wf st'.
Proof.
  destruct (@reserve_refused Z small_allocator (initialized [1; 2; 3]) 10) as [_ Hsecond].
  - vm_compute; intuition discriminate.
  - by vm_compute.
  - destruct Hsecond as (st' & Hrun & Hsize & Hel & Hcap & Hblk & Hwf);
      [by vm_compute|by vm_compute|].
    exists st'. split; [exact Hrun|]. split; [exact Hsize|]. split; [exact Hel|].
    split; [exact Hcap|]. split; [exact Hblk|]. apply Hwf. by vm_compute.
Defined.
